(** * ImageProcessor: the upload / process / download / delete lifecycle

    A shallow embedding of the React component [ImageProcessor]
    (src/unnamed/part_000).  The component state ([useState] cells and
    [useRef] cells) and the part of the browser the handlers talk to (the
    object-URL registry, the interval timers, the pending calls of the
    background-removal library, the toasts and the saved downloads) are one
    record, and every handler is a function on that record.

    Conventions of the model.
    - A handler runs against the state of the latest render: its closure
      values [image] and [isProcessing] are the fields of the state it
      receives.
    - [handleFileChange] awaits the compression library and reads no state
      afterwards, so it is one step taken when the compression settles; the
      outcome of the compression is a parameter of the step.
    - [handleProcess] is split at its [await]: the call ([handleProcess]),
      and the two continuations ([handleProcess_resolved],
      [handleProcess_rejected]) taken when the pending call settles.
    - [useEffect(() => cleanup, [cleanup])] with [cleanup] depending on
      [image] makes React run the cleanup of the previous render, closed
      over the previous [image], whenever [setImage] has stored a new
      object: [flushEffects]. *)

From stdpp Require Import gmap strings list pretty.
From Stdlib Require Import Ascii ZArith QArith Qround Qpower Lqa.

Local Close Scope Q_scope.
Local Open Scope string_scope.

(* [set_solver] clears hypotheses it has already consumed. *)
#[local] Set Warnings "-clear-no-such-hyp".

(** ** Data model *)

Inductive Status := pending | processing | completed | failed.

(** A [File] as the handlers see it: [name], [type], [size]; its bytes are
    never inspected and are an opaque content id. *)
Record File := mkFile {
  file_name : string;
  file_type : string;
  file_size : Z;
  file_data : N }.

Record Blob := mkBlob {
  blob_data : N;
  blob_type : string }.

(** [interface ProcessedImage]. *)
Record ProcessedImage := mkImage {
  original : option File;
  originalUrl : string;
  processed : option Blob;
  processedUrl : option string;
  name : string;
  status : Status }.

Record Toast := mkToast {
  title : string;
  description : string;
  variant : option string }.

(** A pending [removeBackground] call: the file it was given and the local
    [timer] of the [processImage] activation that awaits it. *)
Record Run := mkRun {
  run_file : File;
  run_timer : positive }.

Module SETTINGS.
Definition upload_maxSize : Z := 10 * 1024 * 1024.
Definition upload_types : list string :=
  ["image/jpeg"; "image/png"; "image/webp"].
Definition processing_model : string := "isnet".
Definition processing_format : string := "image/png".
End SETTINGS.

Record State := mkState {
  (* useState *)
  image : option ProcessedImage;
  isProcessing : bool;
  progress : Z;
  isDragging : bool;
  timeLeft : Z;
  (* useRef *)
  timerRef : option positive;
  fileInputRef : option string;
  (* the browser *)
  objectUrls : gset string;
  urlCount : nat;
  intervals : gset positive;
  intervalCount : positive;
  inFlight : list Run;
  toasts : list Toast;
  saved : list (string * Blob);
  (* the image closed over by the cleanup that React still has to run *)
  staleImage : option (option ProcessedImage) }.

Definition initial : State :=
  {| image := None; isProcessing := false; progress := 0; isDragging := false;
     timeLeft := 20; timerRef := None; fileInputRef := Some "";
     objectUrls := ∅; urlCount := 0; intervals := ∅; intervalCount := 1;
     inFlight := []; toasts := []; saved := []; staleImage := None |}.

(** ** Field updates *)

Definition set_image v st :=
  mkState v (isProcessing st) (progress st) (isDragging st) (timeLeft st)
    (timerRef st) (fileInputRef st) (objectUrls st) (urlCount st)
    (intervals st) (intervalCount st) (inFlight st) (toasts st) (saved st)
    (staleImage st).
Definition setIsProcessing v st :=
  mkState (image st) v (progress st) (isDragging st) (timeLeft st)
    (timerRef st) (fileInputRef st) (objectUrls st) (urlCount st)
    (intervals st) (intervalCount st) (inFlight st) (toasts st) (saved st)
    (staleImage st).
Definition setProgress v st :=
  mkState (image st) (isProcessing st) v (isDragging st) (timeLeft st)
    (timerRef st) (fileInputRef st) (objectUrls st) (urlCount st)
    (intervals st) (intervalCount st) (inFlight st) (toasts st) (saved st)
    (staleImage st).
Definition setIsDragging v st :=
  mkState (image st) (isProcessing st) (progress st) v (timeLeft st)
    (timerRef st) (fileInputRef st) (objectUrls st) (urlCount st)
    (intervals st) (intervalCount st) (inFlight st) (toasts st) (saved st)
    (staleImage st).
Definition setTimeLeft v st :=
  mkState (image st) (isProcessing st) (progress st) (isDragging st) v
    (timerRef st) (fileInputRef st) (objectUrls st) (urlCount st)
    (intervals st) (intervalCount st) (inFlight st) (toasts st) (saved st)
    (staleImage st).
Definition set_timerRef v st :=
  mkState (image st) (isProcessing st) (progress st) (isDragging st)
    (timeLeft st) v (fileInputRef st) (objectUrls st) (urlCount st)
    (intervals st) (intervalCount st) (inFlight st) (toasts st) (saved st)
    (staleImage st).
Definition set_fileInputRef v st :=
  mkState (image st) (isProcessing st) (progress st) (isDragging st)
    (timeLeft st) (timerRef st) v (objectUrls st) (urlCount st)
    (intervals st) (intervalCount st) (inFlight st) (toasts st) (saved st)
    (staleImage st).
Definition set_objectUrls v st :=
  mkState (image st) (isProcessing st) (progress st) (isDragging st)
    (timeLeft st) (timerRef st) (fileInputRef st) v (urlCount st)
    (intervals st) (intervalCount st) (inFlight st) (toasts st) (saved st)
    (staleImage st).
Definition set_urlCount v st :=
  mkState (image st) (isProcessing st) (progress st) (isDragging st)
    (timeLeft st) (timerRef st) (fileInputRef st) (objectUrls st) v
    (intervals st) (intervalCount st) (inFlight st) (toasts st) (saved st)
    (staleImage st).
Definition set_intervals v st :=
  mkState (image st) (isProcessing st) (progress st) (isDragging st)
    (timeLeft st) (timerRef st) (fileInputRef st) (objectUrls st)
    (urlCount st) v (intervalCount st) (inFlight st) (toasts st) (saved st)
    (staleImage st).
Definition set_intervalCount v st :=
  mkState (image st) (isProcessing st) (progress st) (isDragging st)
    (timeLeft st) (timerRef st) (fileInputRef st) (objectUrls st)
    (urlCount st) (intervals st) v (inFlight st) (toasts st) (saved st)
    (staleImage st).
Definition set_inFlight v st :=
  mkState (image st) (isProcessing st) (progress st) (isDragging st)
    (timeLeft st) (timerRef st) (fileInputRef st) (objectUrls st)
    (urlCount st) (intervals st) (intervalCount st) v (toasts st) (saved st)
    (staleImage st).
Definition set_toasts v st :=
  mkState (image st) (isProcessing st) (progress st) (isDragging st)
    (timeLeft st) (timerRef st) (fileInputRef st) (objectUrls st)
    (urlCount st) (intervals st) (intervalCount st) (inFlight st) v (saved st)
    (staleImage st).
Definition set_saved v st :=
  mkState (image st) (isProcessing st) (progress st) (isDragging st)
    (timeLeft st) (timerRef st) (fileInputRef st) (objectUrls st)
    (urlCount st) (intervals st) (intervalCount st) (inFlight st) (toasts st)
    v (staleImage st).
Definition set_staleImage v st :=
  mkState (image st) (isProcessing st) (progress st) (isDragging st)
    (timeLeft st) (timerRef st) (fileInputRef st) (objectUrls st)
    (urlCount st) (intervals st) (intervalCount st) (inFlight st) (toasts st)
    (saved st) v.

(** ** The browser *)

(** JavaScript truthiness of a string: every string but the empty one. *)
Definition truthy (s : string) : bool := negb (String.eqb s "").

(** The [n]-th URL the browser hands out. *)
Definition blobUrl (n : nat) : string := "blob:" +:+ pretty n.

(** [URL.createObjectURL]: a fresh, non-empty URL, registered as live. *)
Definition createObjectURL (st : State) : string * State :=
  let u := blobUrl (urlCount st) in
  (u, set_urlCount (S (urlCount st)) (set_objectUrls ({[u]} ∪ objectUrls st) st)).

(** [URL.revokeObjectURL]: no effect on a URL that is not live. *)
Definition revokeObjectURL (u : string) (st : State) : State :=
  set_objectUrls (objectUrls st ∖ {[u]}) st.

Definition setInterval (st : State) : positive * State :=
  let t := intervalCount st in
  (t, set_intervalCount (Pos.succ t) (set_intervals ({[t]} ∪ intervals st) st)).

Definition clearInterval (t : positive) (st : State) : State :=
  set_intervals (intervals st ∖ {[t]}) st.

Definition toast (t : Toast) (st : State) : State :=
  set_toasts (toasts st ++ [t]) st.

(** [if (u) URL.revokeObjectURL(u)] for a [string] and a [string | null]. *)
Definition revokeIfSet (u : string) (st : State) : State :=
  if truthy u then revokeObjectURL u st else st.

Definition revokeIfSome (u : option string) (st : State) : State :=
  match u with
  | Some u => revokeIfSet u st
  | None => st
  end.

(** [if (timerRef.current) { clearInterval(timerRef.current);
    timerRef.current = null; }] *)
Definition clearTimerRef (st : State) : State :=
  match timerRef st with
  | Some t => set_timerRef None (clearInterval t st)
  | None => st
  end.

(** ** React: [setImage] and the cleanup effect *)

(** [setImage(v)].  Storing [null] over [null] is no change of state; any
    other call stores a new object, so the next commit sees a new [cleanup]
    and runs the previous one, which closes over the image of the last
    render. *)
Definition setImage (v : option ProcessedImage) (st : State) : State :=
  match staleImage st, image st, v with
  | None, None, None => st
  | None, old, _ => set_staleImage (Some old) (set_image v st)
  | Some _, _, _ => set_image v st
  end.

(** The [cleanup] callback, closed over [img]. *)
Definition cleanup (img : option ProcessedImage) (st : State) : State :=
  let st :=
    match img with
    | Some i => revokeIfSome (processedUrl i) (revokeIfSet (originalUrl i) st)
    | None => st
    end in
  let st := clearTimerRef st in
  setIsProcessing false (setTimeLeft 0 (setProgress 0 st)).

Definition flushEffects (st : State) : State :=
  match staleImage st with
  | Some old => cleanup old (set_staleImage None st)
  | None => st
  end.

(** ** JavaScript numbers in the progress callback

    The progress [p] handed to the callback is a finite double, modelled by
    its exact rational value.  [p * 100] is the IEEE-754 binary64 product:
    the exact product rounded to the nearest double, ties to even
    ([double_round]; 53 significant bits, subnormals below [2^-1022];
    overflow does not arise for the magnitudes the callback sees). *)

Local Open Scope Q_scope.

(** Round to the nearest integer, ties to even. *)
Definition round_half_even (q : Q) : Z :=
  let f := Qfloor q in
  match Qcompare (q - inject_Z f) (1 # 2) with
  | Lt => f
  | Gt => (f + 1)%Z
  | Eq => if Z.even f then f else (f + 1)%Z
  end.

(** [floor (log2 x)] for [0 < x]. *)
Definition ilog2 (x : Q) : Z :=
  let d := (Z.log2 (Qnum x) - Z.log2 (Zpos (Qden x)))%Z in
  if Qle_bool (Qpower 2 d) x then d else (d - 1)%Z.

(** The exponent of the binade a positive [x] is rounded in. *)
Definition binade (x : Q) : Z := Z.max (-1022) (ilog2 x).

Definition round_pos (x : Q) : Q :=
  let e := binade x in
  inject_Z (round_half_even (x * Qpower 2 (52 - e))) * Qpower 2 (e - 52).

Definition double_round (x : Q) : Q :=
  match Qcompare x 0 with
  | Eq => 0
  | Gt => round_pos x
  | Lt => - round_pos (- x)
  end.

(** [Math.floor(p * 100)] *)
Definition progressValue (p : Q) : Z := Qfloor (double_round (p * 100)).

Local Close Scope Q_scope.

(** ** Upload: [handleFileChange] *)

Inductive UploadError :=
| InvalidType
| TooLarge
| CompressionFailure (message : option string).

(** The message of the [Error] caught by [handleFileChange]; a value that is
    not an [Error] is reported as "Failed to load image". *)
Definition error_message (e : UploadError) : string :=
  match e with
  | InvalidType => "Invalid file type. Please upload a JPG, PNG or WebP image."
  | TooLarge => "File is too large. Please upload an image under 10MB."
  | CompressionFailure (Some m) => m
  | CompressionFailure None => "Failed to load image"
  end.

Definition errorToast (e : UploadError) : Toast :=
  mkToast "Error" (error_message e) (Some "destructive").

(** [Array.prototype.includes] on strings. *)
Definition includes (l : list string) (s : string) : bool :=
  existsb (String.eqb s) l.

(** The two [throw]s at the head of the [try] block, in source order. *)
Definition validate (file : File) : option UploadError :=
  if negb (includes SETTINGS.upload_types (file_type file)) then Some InvalidType
  else if (file_size file >? SETTINGS.upload_maxSize)%Z then Some TooLarge
  else None.

(** What [await imageCompression(file, options)] settles to: the compressed
    file, or a thrown value ([Some m] for an [Error] with message [m]). *)
Definition Compression := (File + option string)%type.

Definition handleFileChange (files0 : option File) (c : Compression)
    (st : State) : State :=
  match files0 with
  | None => st
  | Some file =>
    match validate file with
    | Some e => toast (errorToast e) st
    | None =>
      match c with
      | inr m => toast (errorToast (CompressionFailure m)) st
      | inl compressedFile =>
        let (imageUrl, st) := createObjectURL st in
        setImage (Some {| original := Some compressedFile;
                          originalUrl := imageUrl;
                          processed := None;
                          processedUrl := None;
                          name := file_name file;
                          status := pending |}) st
      end
    end
  end.

(** ** Processing: [processImage] and [handleProcess] *)

(** The interval callback installed by [processImage] for its [timer]. *)
Definition tick (timer : positive) (st : State) : State :=
  if decide (timer ∈ intervals st) then
    if (timeLeft st <=? 1)%Z then setTimeLeft 0 (clearInterval timer st)
    else setTimeLeft (timeLeft st - 1) st
  else st.

(** The [progress] callback handed to [removeBackground]. *)
Definition onProgress (p : Q) (st : State) : State :=
  setProgress (progressValue p) st.

(** [processImage(file)] up to its [await]. *)
Definition processImage (file : File) (st : State) : State :=
  let st := setProgress 0 (setTimeLeft 20 st) in
  let (timer, st) := setInterval st in
  let st := set_timerRef (Some timer) st in
  set_inFlight (inFlight st ++ [mkRun file timer]) st.

(** [processImage] after [removeBackground] resolved with [result]. *)
Definition processImage_resolved (r : Run) (result : N) (st : State)
    : Blob * State :=
  let st := clearInterval (run_timer r) st in
  let st := set_timerRef None st in
  (mkBlob result SETTINGS.processing_format, st).

(** The [catch] block of [processImage]; the error is rethrown. *)
Definition processImage_rejected (r : Run) (st : State) : State :=
  let st := clearInterval (run_timer r) st in
  let st := match timerRef st with
            | Some t => clearInterval t st
            | None => st
            end in
  let st := set_timerRef None st in
  setProgress 0 (setTimeLeft 0 st).

(** [handleProcess] up to its [await]. *)
Definition handleProcess (st : State) : State :=
  match image st with
  | Some img =>
    match original img with
    | Some file =>
      if isProcessing st then st
      else processImage file
             (setTimeLeft 20 (setProgress 0 (setIsProcessing true st)))
    | None => st
    end
  | None => st
  end.

(** The [finally] block of [handleProcess]. *)
Definition handleProcess_finally (st : State) : State :=
  clearTimerRef (setProgress 0 (setTimeLeft 0 (setIsProcessing false st))).

(** The rest of the [try] block once [processImage] returned its blob. *)
Definition handleProcess_resolved (r : Run) (result : N) (st : State) : State :=
  let (processedBlob, st) := processImage_resolved r result st in
  let (url, st) := createObjectURL st in
  let st :=
    match image st with
    | Some prev =>
      let st := revokeIfSome (processedUrl prev) st in
      setImage (Some {| original := original prev;
                        originalUrl := originalUrl prev;
                        processed := Some processedBlob;
                        processedUrl := Some url;
                        name := name prev;
                        status := completed |}) st
    | None => setImage None st
    end in
  let st := toast (mkToast "Success" "Image processed successfully" None) st in
  handleProcess_finally st.

(** The [catch] block of [handleProcess], entered when [processImage]
    rethrows. *)
Definition handleProcess_rejected (r : Run) (st : State) : State :=
  let st := processImage_rejected r st in
  let st :=
    match image st with
    | Some prev =>
      setImage (Some {| original := original prev;
                        originalUrl := originalUrl prev;
                        processed := processed prev;
                        processedUrl := processedUrl prev;
                        name := name prev;
                        status := failed |}) st
    | None => setImage None st
    end in
  let st := toast (mkToast "Processing failed"
                     "Failed to process image. Please try again."
                     (Some "destructive")) st in
  handleProcess_finally st.

(** ** Download: [handleDownload] *)

Definition is_dot (c : ascii) : bool := Ascii.eqb c "."%char.
Definition is_slash (c : ascii) : bool := Ascii.eqb c "/"%char.

(** [[^/.]*$]: every remaining character is neither a slash nor a dot. *)
Fixpoint ext_chars (s : string) : bool :=
  match s with
  | EmptyString => true
  | String c r => negb (is_slash c) && negb (is_dot c) && ext_chars r
  end.

(** [/\.[^/.]+$/] matched at the head of [s]. *)
Definition ext_here (s : string) : bool :=
  match s with
  | String c (String d r) => is_dot c && ext_chars (String d r)
  | _ => false
  end.

(** [s.replace(/\.[^/.]+$/, '')]: the leftmost match, if any, is removed;
    it reaches the end of the string. *)
Fixpoint strip_extension (s : string) : string :=
  if ext_here s then ""
  else match s with
       | EmptyString => ""
       | String c r => String c (strip_extension r)
       end.

(** [`processed_${image.name.replace(/\.[^/.]+$/, '')}.png`] *)
Definition downloadName (n : string) : string :=
  "processed_" +:+ strip_extension n +:+ ".png".

Definition handleDownload (st : State) : State :=
  match image st with
  | Some img =>
    match processed img with
    | Some blob =>
      if truthy (name img) then
        let (href, st) := createObjectURL st in
        let st := set_saved (saved st ++ [(downloadName (name img), blob)]) st in
        revokeObjectURL href st
      else st
    | None => st
    end
  | None => st
  end.

(** ** Delete: [handleDelete] *)

Definition handleDelete (st : State) : State :=
  match image st with
  | None => st
  | Some img =>
    let st := if isProcessing st then setIsProcessing false st else st in
    let st := revokeIfSet (originalUrl img) st in
    let st := revokeIfSome (processedUrl img) st in
    let st := clearTimerRef st in
    let st := setImage None st in
    let st := setIsDragging false
                (setTimeLeft 0 (setProgress 0 (setIsProcessing false st))) in
    let st := match fileInputRef st with
              | Some _ => set_fileInputRef (Some "") st
              | None => st
              end in
    toast (mkToast "Success" "Image deleted successfully" None) st
  end.

(** ** Drag and drop *)

Definition handleDragOver (st : State) : State := setIsDragging true st.
Definition handleDragLeave (st : State) : State := setIsDragging false st.

(** [handleDrop] hands its event to [handleFileChange], which reads
    [event.target.files?.[0]] from it: [files0].  For a drop on the drop
    targets that is undefined, the dropped files being in
    [event.dataTransfer.files] (see [dropped] and [dropEvent]). *)
Definition handleDrop (files0 : option File) (c : Compression) (st : State)
    : State :=
  handleFileChange files0 c (setIsDragging false st).

(** ** The event loop *)

Inductive Event :=
| FileChange (files0 : option File) (c : Compression)
| Drop (files0 : option File) (c : Compression)
| DragOver
| DragLeave
| Process
| Progress (i : nat) (p : Q)
| Tick (timer : positive)
| Settled (i : nat) (result : option N)
| Download
| Delete
| FileInput (v : option string).

(** The handler of an event.  [Progress i p] and [Settled i result] concern
    the [i]-th pending call and are void when there is none; [FileInput]
    is the browser mounting, unmounting or filling the file input. *)
Definition handle (ev : Event) (st : State) : State :=
  match ev with
  | FileChange f c => handleFileChange f c st
  | Drop f c => handleDrop f c st
  | DragOver => handleDragOver st
  | DragLeave => handleDragLeave st
  | Process => handleProcess st
  | Progress i p =>
    match inFlight st !! i with
    | Some _ => onProgress p st
    | None => st
    end
  | Tick timer => tick timer st
  | Settled i result =>
    match inFlight st !! i with
    | Some r =>
      let st := set_inFlight (delete i (inFlight st)) st in
      match result with
      | Some data => handleProcess_resolved r data st
      | None => handleProcess_rejected r st
      end
    | None => st
    end
  | Download => handleDownload st
  | Delete => handleDelete st
  | FileInput v => set_fileInputRef v st
  end.

(** One turn of the event loop: the handler, then the commit with its
    effect cleanup. *)
Definition step (ev : Event) (st : State) : State :=
  flushEffects (handle ev st).

Definition run (evs : list Event) (st : State) : State :=
  fold_left (fun s ev => step ev s) evs st.

Inductive reachable : State -> Prop :=
| reachable_initial : reachable initial
| reachable_step st ev : reachable st -> reachable (step ev st).

(** * Definitions used by the statements *)

(** ** What the handlers leave *)

(** The rejection, if any, of a candidate file whose compression settles
    to [c]: the first failing check of [handleFileChange]. *)
Definition rejection (file : File) (c : Compression) : option UploadError :=
  match validate file with
  | Some e => Some e
  | None =>
    match c with
    | inr m => Some (CompressionFailure m)
    | inl _ => None
    end
  end.

(** The session an accepted upload stores. *)
Definition pending_of (file compressedFile : File) (u : string) : ProcessedImage :=
  {| original := Some compressedFile; originalUrl := u;
     processed := None; processedUrl := None;
     name := file_name file; status := pending |}.

(** The session a settled run leaves when it resolved. *)
Definition completed_of (prev : ProcessedImage) (b : Blob) (u : string)
    : ProcessedImage :=
  {| original := original prev; originalUrl := originalUrl prev;
     processed := Some b; processedUrl := Some u;
     name := name prev; status := completed |}.

(** The session a settled run leaves when it rejected:
    [{ ...prev, status: 'failed' }]. *)
Definition failed_of (prev : ProcessedImage) : ProcessedImage :=
  {| original := original prev; originalUrl := originalUrl prev;
     processed := processed prev; processedUrl := processedUrl prev;
     name := name prev; status := failed |}.

Definition failedToast : Toast :=
  mkToast "Processing failed" "Failed to process image. Please try again."
    (Some "destructive").

Definition deletedToast : Toast :=
  mkToast "Success" "Image deleted successfully" None.

(** ** The guarded updates as set operations *)

(** [if (u) URL.revokeObjectURL(u)] on the set of live URLs. *)
Definition revoked (u : string) (urls : gset string) : gset string :=
  if truthy u then urls ∖ {[u]} else urls.

Definition revokedSome (u : option string) (urls : gset string) : gset string :=
  match u with
  | Some u => revoked u urls
  | None => urls
  end.

(** [if (t) clearInterval(t)] on the set of running intervals. *)
Definition cleared (t : option positive) (ivs : gset positive) : gset positive :=
  match t with
  | Some t => ivs ∖ {[t]}
  | None => ivs
  end.

(** The cleanup that is pending once [v] has been stored over [old]. *)
Definition stale_after (s : option (option ProcessedImage))
    (old v : option ProcessedImage) : option (option ProcessedImage) :=
  match s, old, v with
  | None, None, None => None
  | None, old, _ => Some old
  | Some o, _, _ => Some o
  end.

(** The URLs left live by the cleanup closed over [img]. *)
Definition cleaned (img : option ProcessedImage) (urls : gset string)
    : gset string :=
  match img with
  | Some i => revokedSome (processedUrl i) (revoked (originalUrl i) urls)
  | None => urls
  end.

(** ** Invariants *)

(** What holds of every session the component can reach. *)
Definition session_ok (img : ProcessedImage) : Prop :=
  match status img with
  | pending => processed img = None /\ processedUrl img = None
  | processing => False
  | completed => processed img <> None /\ processedUrl img <> None
  | failed => (processed img = None <-> processedUrl img = None)
  end.

(** A URL handed out by the browser so far. *)
Definition known (st : State) (u : string) : Prop :=
  exists k, k < urlCount st /\ u = blobUrl k.

(** Live URLs and the URLs of the session have all been handed out by the
    browser. *)
Definition urls_ok (st : State) : Prop :=
  (forall u, u ∈ objectUrls st -> known st u)
  /\ (forall img, image st = Some img ->
        known st (originalUrl img)
        /\ forall u, processedUrl img = Some u -> known st u).

(** The URLs held by a session. *)
Definition session_urls (img : ProcessedImage) : gset string :=
  {[originalUrl img]} ∪ match processedUrl img with
                        | Some u => {[u]}
                        | None => ∅
                        end.

(** ** File names, as the specification speaks of them *)

(** The part of [n] after its last dot, when [n] has a dot. *)
Fixpoint final_extension (n : string) : option string :=
  match n with
  | EmptyString => None
  | String c r =>
    match final_extension r with
    | Some e => Some e
    | None => if is_dot c then Some r else None
    end
  end.

(** [n] without its final extension: [n] up to its last dot, the dot
    excluded; [n] itself when it has no dot. *)
Fixpoint stem (n : string) : string :=
  match n with
  | EmptyString => EmptyString
  | String c r =>
    match final_extension r with
    | Some _ => String c (stem r)
    | None => if is_dot c then EmptyString else String c (stem r)
    end
  end.

Fixpoint slash_free (s : string) : bool :=
  match s with
  | EmptyString => true
  | String c r => negb (is_slash c) && slash_free r
  end.

(** The extensions the regular expression of [handleDownload] removes:
    not empty, and without a slash. *)
Definition removable (e : string) : bool := truthy e && slash_free e.

(** ** Sample files, event sequences and states *)

Definition jpeg_2MiB : File := mkFile "cat.jpg" "image/jpeg" (2 * 1024 * 1024) 1.
Definition jpeg_small : File := mkFile "cat.jpg" "image/jpeg" 400000 2.
Definition text_file : File := mkFile "notes.txt" "text/plain" 120 3.
Definition png_10MiB : File := mkFile "big.png" "image/png" (10 * 1024 * 1024) 4.
Definition png_11MiB : File := mkFile "huge.png" "image/png" (11 * 1024 * 1024) 5.
Definition pdf_11MiB : File :=
  mkFile "scan.pdf" "application/pdf" (11 * 1024 * 1024) 6.
Definition dotted_png : File := mkFile "archive." "image/png" 300000 7.

(** One accepted upload. *)
Definition uploaded : State :=
  run [FileChange (Some jpeg_2MiB) (inl jpeg_small)] initial.

(** An upload and a processing request: one run is pending. *)
Definition processing_cat : State :=
  run [FileChange (Some jpeg_2MiB) (inl jpeg_small); Process] initial.

(** An upload and a run that resolved. *)
Definition completed_cat : State :=
  run [FileChange (Some jpeg_2MiB) (inl jpeg_small); Process;
       Settled 0 (Some 9%N)] initial.

(** The same for a file whose name ends in a dot. *)
Definition completed_archive : State :=
  run [FileChange (Some dotted_png) (inl dotted_png); Process;
       Settled 0 (Some 9%N)] initial.

(** A run resolves, a second run on the same session rejects. *)
Definition two_runs_second_fails : list Event :=
  [FileChange (Some jpeg_2MiB) (inl jpeg_small);
   Process; Settled 0 (Some 9%N);
   Process; Settled 0 None].

Definition failed_after_completed : ProcessedImage :=
  failed_of (completed_of (pending_of jpeg_2MiB jpeg_small (blobUrl 0))
               (mkBlob 9 "image/png") (blobUrl 1)).

(** The session is deleted while its run is pending; a new file is
    uploaded and processed. *)
Definition delete_during_run : list Event :=
  [FileChange (Some jpeg_2MiB) (inl jpeg_small); Process; Delete;
   FileChange (Some jpeg_2MiB) (inl jpeg_small); Process].

(** A run is pending when the session is deleted and resolves afterwards;
    then a new file is uploaded. *)
Definition result_after_delete : list Event :=
  [FileChange (Some jpeg_2MiB) (inl jpeg_small); Process; Delete;
   Settled 0 (Some 9%N);
   FileChange (Some jpeg_2MiB) (inl jpeg_small)].

(** The double nearest to 0.35, and one half. *)
Definition p_035 : Q := 6305039478318694 # 18014398509481984.
Definition p_half : Q := 1 # 2.

(** * The rest of the component *)

(** ** Module-level probes *)

(** [SETTINGS.processing.workerCount]:
    [typeof navigator !== 'undefined' ?
       Math.min(navigator.hardwareConcurrency || 2, 4) : 2].
    [None] is a missing [navigator]; [Some None] a navigator without the
    [hardwareConcurrency] property. *)
Definition workerCount (navigator : option (option Z)) : Z :=
  match navigator with
  | Some hardwareConcurrency =>
    Z.min (match hardwareConcurrency with
           | Some n => if (n =? 0)%Z then 2 else n
           | None => 2
           end) 4
  | None => 2
  end.

(** ** What the component renders *)

Inductive OriginalPane :=
| OriginalImage (src : string)
| UploadPrompt.

Inductive ProcessedPane :=
| Spinner (percent seconds : Z)
| ProcessedResult (src : string)
| Placeholder.

(** The conditional parts of the JSX returned by [ImageProcessor]. *)
Record View := mkView {
  originalPane : OriginalPane;
  processedPane : ProcessedPane;
  uploadSection : bool;
  processButton : bool;
  downloadButton : bool;
  processingButton : bool }.

Definition render (st : State) : View :=
  {| originalPane :=
       match image st with
       | Some img =>
         if truthy (originalUrl img) then OriginalImage (originalUrl img)
         else UploadPrompt
       | None => UploadPrompt
       end;
     processedPane :=
       if isProcessing st then Spinner (progress st) (timeLeft st)
       else match image st with
            | Some img =>
              match processedUrl img with
              | Some u => if truthy u then ProcessedResult u else Placeholder
              | None => Placeholder
              end
            | None => Placeholder
            end;
     uploadSection :=
       match image st with
       | Some img => negb (bool_decide (is_Some (original img)))
       | None => true
       end;
     processButton :=
       negb (isProcessing st)
       && match image st with
          | Some img => bool_decide (is_Some (original img))
          | None => false
          end;
     downloadButton :=
       match image st with
       | Some img => bool_decide (is_Some (processed img))
       | None => false
       end
       && negb (isProcessing st);
     processingButton := isProcessing st |}.

(** ** The state each handler leaves *)

Definition successToast : Toast :=
  mkToast "Success" "Image processed successfully" None.

(** After [handleProcess] has started a run on [file]. *)
Definition after_process (st : State) (file : File) : State :=
  {| image := image st; isProcessing := true; progress := 0;
     isDragging := isDragging st; timeLeft := 20;
     timerRef := Some (intervalCount st);
     fileInputRef := fileInputRef st;
     objectUrls := objectUrls st; urlCount := urlCount st;
     intervals := {[intervalCount st]} ∪ intervals st;
     intervalCount := Pos.succ (intervalCount st);
     inFlight := inFlight st ++ [mkRun file (intervalCount st)];
     toasts := toasts st; saved := saved st; staleImage := None |}.

(** After the [i]-th pending call, started as [r], resolved with [data]. *)
Definition after_resolved (st : State) (i : nat) (r : Run) (data : N) : State :=
  {| image :=
       match image st with
       | Some prev =>
         Some (completed_of prev (mkBlob data SETTINGS.processing_format)
                 (blobUrl (urlCount st)))
       | None => None
       end;
     isProcessing := false; progress := 0; isDragging := isDragging st;
     timeLeft := 0; timerRef := None; fileInputRef := fileInputRef st;
     objectUrls :=
       match image st with
       | Some prev =>
         cleaned (Some prev)
           (revokedSome (processedUrl prev)
              ({[blobUrl (urlCount st)]} ∪ objectUrls st))
       | None => {[blobUrl (urlCount st)]} ∪ objectUrls st
       end;
     urlCount := S (urlCount st);
     intervals := intervals st ∖ {[run_timer r]};
     intervalCount := intervalCount st;
     inFlight := delete i (inFlight st);
     toasts := toasts st ++ [successToast];
     saved := saved st; staleImage := None |}.

(** After the [i]-th pending call, started as [r], rejected. *)
Definition after_rejected (st : State) (i : nat) (r : Run) : State :=
  {| image := option_map failed_of (image st);
     isProcessing := false; progress := 0; isDragging := isDragging st;
     timeLeft := 0; timerRef := None; fileInputRef := fileInputRef st;
     objectUrls := cleaned (image st) (objectUrls st);
     urlCount := urlCount st;
     intervals := cleared (timerRef st) (intervals st ∖ {[run_timer r]});
     intervalCount := intervalCount st;
     inFlight := delete i (inFlight st);
     toasts := toasts st ++ [failedToast];
     saved := saved st; staleImage := None |}.

(** After an accepted upload of [file], compressed to [cf]. *)
Definition after_upload (st : State) (file cf : File) : State :=
  {| image := Some (pending_of file cf (blobUrl (urlCount st)));
     isProcessing := false; progress := 0; isDragging := isDragging st;
     timeLeft := 0; timerRef := None;
     fileInputRef := fileInputRef st;
     objectUrls :=
       cleaned (image st) ({[blobUrl (urlCount st)]} ∪ objectUrls st);
     urlCount := S (urlCount st);
     intervals := cleared (timerRef st) (intervals st);
     intervalCount := intervalCount st;
     inFlight := inFlight st;
     toasts := toasts st;
     saved := saved st;
     staleImage := None |}.

(** After [handleDelete] found the session [img]. *)
Definition after_delete (st : State) (img : ProcessedImage) : State :=
  {| image := None; isProcessing := false; progress := 0; isDragging := false;
     timeLeft := 0; timerRef := None;
     fileInputRef := match fileInputRef st with
                     | Some _ => Some ""
                     | None => None
                     end;
     objectUrls :=
       cleaned (Some img)
         (revokedSome (processedUrl img)
            (revoked (originalUrl img) (objectUrls st)));
     urlCount := urlCount st;
     intervals := cleared (timerRef st) (intervals st);
     intervalCount := intervalCount st;
     inFlight := inFlight st;
     toasts := toasts st ++ [deletedToast];
     saved := saved st;
     staleImage := None |}.

(** After [handleDownload] saved the result [b] of the session [img]. *)
Definition after_download (st : State) (img : ProcessedImage) (b : Blob) : State :=
  set_saved (saved st ++ [(downloadName (name img), b)])
    (set_urlCount (S (urlCount st)) st).

(** ** More invariants *)

(** A saved file is a PNG blob under a name of the form
    [processed_....png]. *)
Definition saved_ok (entry : string * Blob) : Prop :=
  (exists s, fst entry = "processed_" +:+ s +:+ ".png")
  /\ blob_type (snd entry) = "image/png".

(** The timers and flags of a state fit its pending calls. *)
Definition timers_ok (st : State) : Prop :=
  (forall t, t ∈ intervals st -> exists r, r ∈ inFlight st /\ run_timer r = t)
  /\ (isProcessing st = false -> timerRef st = None)
  /\ (isProcessing st = true -> image st <> None)
  /\ (0 <= timeLeft st <= 20)%Z
  /\ (forall t, t ∈ intervals st -> (t < intervalCount st)%positive).

(** A session has its file, and its result, if any, is a PNG blob. *)
Definition session_data_ok (img : ProcessedImage) : Prop :=
  original img <> None
  /\ forall b, processed img = Some b -> blob_type b = "image/png".

(** A live URL that no session holds. *)
Definition leaked (st : State) (u : string) : Prop :=
  u ∈ objectUrls st
  /\ known st u
  /\ forall img, image st = Some img -> u ∉ session_urls img.

(** ** Drop events as the browser delivers them *)

(** The parts of a [DragEvent] the handlers could read: the files being
    dragged, in [event.dataTransfer.files], and the [files] property of
    [event.target], which only a file input has. *)
Record DragEvent := mkDragEvent {
  dataTransfer_files : list File;
  target_files : option (list File) }.

(** A drop of [files] on one of the two drop targets: the target is the
    [div] carrying [onDrop] or an element inside it; the file inputs are
    hidden and are no targets. *)
Definition dropped (files : list File) : DragEvent :=
  {| dataTransfer_files := files; target_files := None |}.

(** [event.target.files?.[0]] *)
Definition target_file0 (e : DragEvent) : option File :=
  match target_files e with
  | Some l => head l
  | None => None
  end.

(** The turn of the event loop a drop gives rise to; [c] is what the
    compression would settle to. *)
Definition dropEvent (e : DragEvent) (c : Compression) : Event :=
  Drop (target_file0 e) c.

(** ** More sample data *)

Definition png_small : File := mkFile "dog.png" "image/png" 500000 8.

(** The session is replaced while its run is pending; the run resolves. *)
Definition replaced_during_run : list Event :=
  [FileChange (Some jpeg_2MiB) (inl jpeg_small); Process;
   FileChange (Some png_small) (inl png_small)].

(** The session is deleted while its run is pending. *)
Definition deleted_during_run : list Event :=
  [FileChange (Some jpeg_2MiB) (inl jpeg_small); Process; Delete].

(** * Properties *)

(** ** Frame facts about the building blocks *)

Ltac break_match :=
  match goal with
  | |- context [match ?x with _ => _ end] => destruct x eqn:?
  | |- context [if ?x then _ else _] => destruct x eqn:?
  end.

Ltac unfold_browser :=
  unfold revokeIfSome, revokeIfSet, clearTimerRef, revokeObjectURL,
    clearInterval, toast, createObjectURL, setInterval in *.

Lemma image_setImage v st : image (setImage v st) = v.
Proof.
  unfold setImage. destruct (staleImage st), (image st) eqn:E, v; simpl; auto.
Qed.

Lemma cleanup_frame img st :
  image (cleanup img st) = image st
  /\ staleImage (cleanup img st) = staleImage st
  /\ toasts (cleanup img st) = toasts st
  /\ saved (cleanup img st) = saved st
  /\ inFlight (cleanup img st) = inFlight st
  /\ isDragging (cleanup img st) = isDragging st
  /\ fileInputRef (cleanup img st) = fileInputRef st.
Proof.
  unfold cleanup. unfold_browser.
  destruct img as [i|]; simpl; repeat break_match; simpl; tauto.
Qed.

Lemma flushEffects_synced st : staleImage st = None -> flushEffects st = st.
Proof. unfold flushEffects. intros ->. reflexivity. Qed.

Lemma image_flushEffects st : image (flushEffects st) = image st.
Proof.
  unfold flushEffects. destruct (staleImage st); [|reflexivity].
  rewrite (proj1 (cleanup_frame _ _)). reflexivity.
Qed.

Lemma image_step ev st : image (step ev st) = image (handle ev st).
Proof. apply image_flushEffects. Qed.

Lemma staleImage_step ev st : staleImage (step ev st) = None.
Proof.
  unfold step, flushEffects. destruct (staleImage (handle ev st)) eqn:E; [|exact E].
  rewrite (proj1 (proj2 (cleanup_frame _ _))). reflexivity.
Qed.

(** Between two turns of the event loop no cleanup is pending. *)
Lemma reachable_synced st : reachable st -> staleImage st = None.
Proof. destruct 1; [reflexivity | apply staleImage_step]. Qed.

Lemma reachable_run evs st : reachable st -> reachable (run evs st).
Proof.
  revert st. induction evs as [|ev evs IH]; intros st H; simpl; [exact H|].
  apply IH. constructor. exact H.
Qed.

(** ** Upload validation *)

Lemma includes_In l s : includes l s = true <-> In s l.
Proof.
  unfold includes. rewrite existsb_exists. split.
  - intros (x & Hx & E). apply String.eqb_eq in E. subst. exact Hx.
  - intros H. exists s. split; [exact H | apply String.eqb_refl].
Qed.

Lemma handleFileChange_rejected file c e st :
  rejection file c = Some e ->
  handleFileChange (Some file) c st = toast (errorToast e) st.
Proof.
  unfold rejection, handleFileChange. destruct (validate file).
  - intros [= ->]. reflexivity.
  - destruct c; [discriminate|]. intros [= <-]. reflexivity.
Qed.

Lemma step_FileChange_rejected file c e st :
  staleImage st = None ->
  rejection file c = Some e ->
  step (FileChange (Some file) c) st = toast (errorToast e) st.
Proof.
  intros Hs Hr. unfold step, handle. rewrite (handleFileChange_rejected _ _ _ _ Hr).
  apply flushEffects_synced. exact Hs.
Qed.

(** C6.  A candidate file whose MIME type is none of image/jpeg, image/png,
    image/webp is rejected with the InvalidType error: the only effect of
    the upload is the error toast, so no session is created and an existing
    one is kept as it is. *)
Theorem C6_invalid_type_rejected st file c :
  reachable st ->
  file_type file <> "image/jpeg" ->
  file_type file <> "image/png" ->
  file_type file <> "image/webp" ->
  step (FileChange (Some file) c) st = toast (errorToast InvalidType) st
  /\ image (step (FileChange (Some file) c) st) = image st
  /\ toasts (step (FileChange (Some file) c) st)
     = (toasts st ++ [mkToast "Error"
         "Invalid file type. Please upload a JPG, PNG or WebP image."
         (Some "destructive")])%list.
Proof.
  intros Hr H1 H2 H3.
  assert (Hv : validate file = Some InvalidType).
  { unfold validate.
    destruct (includes SETTINGS.upload_types (file_type file)) eqn:E; [|reflexivity].
    apply includes_In in E. simpl in E. intuition congruence. }
  assert (Hs : step (FileChange (Some file) c) st = toast (errorToast InvalidType) st).
  { apply step_FileChange_rejected; [apply reachable_synced; exact Hr|].
    unfold rejection. rewrite Hv. reflexivity. }
  rewrite Hs. auto.
Qed.

Lemma C6_invalid_type_rejected_witness :
  step (FileChange (Some text_file) (inl text_file)) uploaded
    = toast (errorToast InvalidType) uploaded
  /\ image (step (FileChange (Some text_file) (inl text_file)) initial) = None.
Proof.
  split.
  - apply (C6_invalid_type_rejected uploaded text_file (inl text_file)).
    + apply reachable_run. constructor.
    + simpl. discriminate.
    + simpl. discriminate.
    + simpl. discriminate.
  - rewrite (proj1 (proj2 (C6_invalid_type_rejected initial text_file
               (inl text_file) reachable_initial
               ltac:(simpl; discriminate) ltac:(simpl; discriminate)
               ltac:(simpl; discriminate)))).
    reflexivity.
Defined.

(** C3 as stated fails twice: a PNG of exactly 10 MiB passes the size check
    and is accepted (the test is [file.size > maxSize]), and a file of
    11 MiB with a disallowed type is rejected with InvalidType, the type
    being checked first. *)
Lemma C3_counterexample :
  ((file_size png_10MiB >= 10 * 1024 * 1024)%Z
   /\ validate png_10MiB = None
   /\ image (step (FileChange (Some png_10MiB) (inl png_10MiB)) initial) <> None)
  /\ ((file_size pdf_11MiB >= 10 * 1024 * 1024)%Z
      /\ validate pdf_11MiB = Some InvalidType).
Proof.
  split; [split; [|split]|split].
  - vm_compute. discriminate.
  - reflexivity.
  - vm_compute. discriminate.
  - vm_compute. discriminate.
  - reflexivity.
Qed.

(** C3, amended.  A candidate file with an allowed MIME type whose size
    exceeds 10 MiB is rejected with the TooLarge error and nothing but the
    error toast changes; and validation is passed only by files of at most
    10 MiB. *)
Theorem C3_too_large_rejected st file c :
  reachable st ->
  In (file_type file) SETTINGS.upload_types ->
  (file_size file > 10 * 1024 * 1024)%Z ->
  step (FileChange (Some file) c) st = toast (errorToast TooLarge) st
  /\ image (step (FileChange (Some file) c) st) = image st
  /\ forall file', validate file' = None ->
       (file_size file' <= 10 * 1024 * 1024)%Z.
Proof.
  intros Hr Ht Hsz.
  assert (Hv : validate file = Some TooLarge).
  { unfold validate. apply includes_In in Ht. rewrite Ht. simpl.
    destruct (Z.gtb_spec (file_size file) SETTINGS.upload_maxSize) as [_|Hle];
      [reflexivity|].
    unfold SETTINGS.upload_maxSize in Hle. lia. }
  assert (Hs : step (FileChange (Some file) c) st = toast (errorToast TooLarge) st).
  { apply step_FileChange_rejected; [apply reachable_synced; exact Hr|].
    unfold rejection. rewrite Hv. reflexivity. }
  rewrite Hs. split; [reflexivity|]. split; [reflexivity|].
  intros f. unfold validate.
  destruct (negb _); [discriminate|].
  destruct (Z.gtb_spec (file_size f) SETTINGS.upload_maxSize) as [|Hle];
    [discriminate|].
  intros _. unfold SETTINGS.upload_maxSize in Hle. lia.
Qed.

Lemma C3_too_large_rejected_witness :
  step (FileChange (Some png_11MiB) (inl png_11MiB)) uploaded
    = toast (errorToast TooLarge) uploaded
  /\ image (step (FileChange (Some png_11MiB) (inl png_11MiB)) uploaded)
     = image uploaded.
Proof.
  destruct (C3_too_large_rejected uploaded png_11MiB (inl png_11MiB)) as (H1 & H2 & _).
  - apply reachable_run. constructor.
  - simpl. auto.
  - simpl. lia.
  - split; [exact H1 | exact H2].
Defined.

(** C10.  When the upload is rejected (disallowed type, size over the
    limit, or a compression that throws), the step changes nothing but the
    list of toasts, which gains the error: the session, its bytes, both of
    its URLs, its name and its status are those of before, and so is the
    URL registry. *)
Theorem C10_rejection_is_atomic st file c :
  reachable st ->
  ~ In (file_type file) SETTINGS.upload_types
  \/ (file_size file > SETTINGS.upload_maxSize)%Z
  \/ (exists m, c = inr m) ->
  (exists e, step (FileChange (Some file) c) st = toast (errorToast e) st)
  /\ image (step (FileChange (Some file) c) st) = image st
  /\ objectUrls (step (FileChange (Some file) c) st) = objectUrls st.
Proof.
  intros Hr Hrej.
  assert (He : exists e, rejection file c = Some e).
  { unfold rejection, validate.
    destruct (includes SETTINGS.upload_types (file_type file)) eqn:Ht; simpl;
      [|eauto].
    destruct (Z.gtb_spec (file_size file) SETTINGS.upload_maxSize) as [|Hle];
      [eauto|].
    destruct Hrej as [Hn | [Hgt | [m ->]]]; [|lia|eauto].
    apply includes_In in Ht. contradiction. }
  destruct He as [e He].
  rewrite (step_FileChange_rejected file c e st (reachable_synced st Hr) He).
  eauto.
Qed.

Lemma C10_rejection_is_atomic_witness :
  image (step (FileChange (Some jpeg_2MiB) (inr (Some "out of memory"))) uploaded)
  = image uploaded.
Proof.
  apply (C10_rejection_is_atomic uploaded jpeg_2MiB (inr (Some "out of memory"))).
  - apply reachable_run. constructor.
  - right. right. exists (Some "out of memory"). reflexivity.
Defined.

(** ** Normal forms of the guarded updates *)

Lemma revokeIfSet_eq u st :
  revokeIfSet u st = set_objectUrls (revoked u (objectUrls st)) st.
Proof.
  unfold revokeIfSet, revoked, revokeObjectURL.
  destruct (truthy u), st; reflexivity.
Qed.

Lemma revokeIfSome_eq u st :
  revokeIfSome u st = set_objectUrls (revokedSome u (objectUrls st)) st.
Proof.
  destruct u as [u|]; simpl; [apply revokeIfSet_eq | destruct st; reflexivity].
Qed.

Lemma clearTimerRef_eq st :
  clearTimerRef st
  = set_timerRef None (set_intervals (cleared (timerRef st) (intervals st)) st).
Proof.
  unfold clearTimerRef, clearInterval. destruct st as [? ? ? ? ? [t|]]; reflexivity.
Qed.

Lemma setImage_eq v st :
  setImage v st
  = set_staleImage (stale_after (staleImage st) (image st) v) (set_image v st).
Proof.
  unfold setImage, stale_after.
  destruct st as [[i|] ? ? ? ? ? ? ? ? ? ? ? ? ? [s|]], v; reflexivity.
Qed.

Lemma cleanup_eq img st :
  cleanup img st
  = setIsProcessing false (setTimeLeft 0 (setProgress 0
      (set_timerRef None
         (set_intervals (cleared (timerRef st) (intervals st))
            (set_objectUrls (cleaned img (objectUrls st)) st))))).
Proof.
  unfold cleanup. rewrite clearTimerRef_eq.
  destruct img as [i|]; simpl.
  - rewrite revokeIfSet_eq, revokeIfSome_eq. reflexivity.
  - destruct st; reflexivity.
Qed.

Ltac unfold_handlers :=
  unfold handle, handleDrop, handleFileChange, handleDragOver, handleDragLeave,
    handleProcess, processImage, onProgress, tick, handleProcess_resolved,
    handleProcess_rejected, processImage_resolved, processImage_rejected,
    handleProcess_finally, handleDownload, handleDelete.

Arguments cleanup : simpl never.
Arguments setImage : simpl never.
Arguments clearTimerRef : simpl never.
Arguments revokeIfSet : simpl never.
Arguments revokeIfSome : simpl never.

(** Bring a handler into a tower of field updates. *)
Ltac normalize :=
  unfold_handlers; cbv zeta;
  unfold createObjectURL, setInterval, revokeObjectURL, clearInterval, toast;
  cbv zeta;
  cbn;
  repeat (progress (rewrite ?revokeIfSet_eq, ?revokeIfSome_eq,
                      ?clearTimerRef_eq, ?setImage_eq, ?cleanup_eq; cbn)).

(** ** The session after each handler *)

Lemma image_handleFileChange f c st :
  image (handleFileChange f c st)
  = match f with
    | Some file =>
      match validate file, c with
      | None, inl compressedFile =>
        Some (pending_of file compressedFile (blobUrl (urlCount st)))
      | _, _ => image st
      end
    | None => image st
    end.
Proof.
  destruct f as [file|]; [|reflexivity]. unfold handleFileChange.
  destruct (validate file); [reflexivity|]. destruct c; [|reflexivity].
  unfold createObjectURL. rewrite image_setImage. reflexivity.
Qed.

Lemma image_handleProcess st : image (handleProcess st) = image st.
Proof.
  unfold handleProcess. destruct (image st) as [img|] eqn:E; [|exact E].
  destruct (original img); [|exact E]. destruct (isProcessing st); [exact E|].
  normalize. exact E.
Qed.

Lemma image_tick t st : image (tick t st) = image st.
Proof. unfold tick. repeat break_match; reflexivity. Qed.

Lemma image_handleDownload st : image (handleDownload st) = image st.
Proof.
  unfold handleDownload. destruct (image st) as [img|] eqn:E; [|exact E].
  destruct (processed img); [|exact E]. destruct (truthy (name img)); exact E.
Qed.

Lemma image_handleDelete st : image (handleDelete st) = None.
Proof.
  unfold handleDelete. destruct (image st) as [img|] eqn:E; [|exact E].
  destruct (isProcessing st), (fileInputRef st) eqn:F; normalize;
    rewrite ?F; reflexivity.
Qed.

Lemma image_handleProcess_resolved r data st :
  image (handleProcess_resolved r data st)
  = match image st with
    | Some prev =>
      Some (completed_of prev (mkBlob data SETTINGS.processing_format)
              (blobUrl (urlCount st)))
    | None => None
    end.
Proof. normalize. destruct (image st); normalize; reflexivity. Qed.

Lemma image_handleProcess_rejected r st :
  image (handleProcess_rejected r st) = option_map failed_of (image st).
Proof.
  normalize. destruct (timerRef st); cbn;
    destruct (image st) eqn:E; normalize; rewrite ?E; reflexivity.
Qed.

(** Every session a handler leaves is the one it found, a new pending one,
    a completed one with its result, or the one it found marked failed. *)
Lemma image_handle_cases ev st img :
  image (handle ev st) = Some img ->
  image st = Some img
  \/ (exists file c u, img = pending_of file c u)
  \/ (exists prev b u, img = completed_of prev b u)
  \/ (exists prev, image st = Some prev /\ img = failed_of prev).
Proof.
  destruct ev; unfold handle.
  - rewrite image_handleFileChange. destruct files0; auto.
    destruct (validate f); auto. destruct c; auto. intros [= <-]. eauto 10.
  - unfold handleDrop. rewrite image_handleFileChange. simpl. destruct files0; auto.
    destruct (validate f); auto. destruct c; auto. intros [= <-]. eauto 10.
  - auto.
  - auto.
  - rewrite image_handleProcess. auto.
  - destruct (inFlight st !! i); auto.
  - rewrite image_tick. auto.
  - destruct (inFlight st !! i); auto. destruct result.
    + rewrite image_handleProcess_resolved. simpl.
      destruct (image st); [|discriminate]. intros [= <-]. eauto 10.
    + rewrite image_handleProcess_rejected. simpl.
      destruct (image st) eqn:E; [|discriminate]. intros [= <-]. eauto 10.
  - rewrite image_handleDownload. auto.
  - rewrite image_handleDelete. discriminate.
  - auto.
Qed.

(** ** Status and processed URL *)

Lemma session_ok_reachable st :
  reachable st -> forall img, image st = Some img -> session_ok img.
Proof.
  induction 1 as [|st ev Hr IH]; intros img; [discriminate|].
  rewrite image_step. intros H.
  destruct (image_handle_cases _ _ _ H) as
    [E | [(f & c & u & ->) | [(prev & b & u & ->) | (prev & E & ->)]]].
  - apply IH. exact E.
  - split; reflexivity.
  - split; discriminate.
  - specialize (IH _ E). unfold session_ok in *. simpl.
    destruct (status prev); intuition congruence.
Qed.

Lemma step_Settled_rejected st i r img :
  inFlight st !! i = Some r ->
  image st = Some img ->
  let st' := step (Settled i None) st in
  image st' = Some (failed_of img)
  /\ isProcessing st' = false
  /\ progress st' = 0%Z
  /\ timeLeft st' = 0%Z
  /\ timerRef st' = None
  /\ toasts st' = (toasts st ++ [failedToast])%list
  /\ inFlight st' = delete i (inFlight st).
Proof.
  intros Hi E. unfold step, handle. rewrite Hi. unfold flushEffects.
  normalize. destruct (timerRef st); cbn; rewrite E; normalize; rewrite E;
    destruct (staleImage st); normalize; repeat split; reflexivity.
Qed.

(** C1 as stated fails: after a run that succeeded and a second run that
    failed on the same session, the status is 'failed' and processedUrl is
    still the URL of the first result. *)
Lemma C1_counterexample :
  ~ (forall st, reachable st ->
     forall img, image st = Some img ->
       (processedUrl img <> None <-> status img = completed)).
Proof.
  intros H.
  specialize (H (run two_runs_second_fails initial)
                (reachable_run _ _ reachable_initial)).
  specialize (H (failed_of (completed_of
                   (pending_of jpeg_2MiB jpeg_small (blobUrl 0))
                   (mkBlob 9 "image/png") (blobUrl 1))) eq_refl).
  simpl in H. destruct H as [H _].
  discriminate H. discriminate.
Qed.

(** C1, amended.  In every reachable state a session with status
    'completed' has a processedUrl, and a processedUrl is set only with
    status 'completed' or 'failed'; a run that fails marks the session
    'failed' and leaves its processedUrl as it was, so that after an earlier
    success the failed session still has one. *)
Theorem C1_processedUrl_and_status st img :
  reachable st ->
  image st = Some img ->
  (status img = completed -> processedUrl img <> None)
  /\ (processedUrl img <> None -> status img = completed \/ status img = failed)
  /\ (forall i r, inFlight st !! i = Some r ->
       exists img', image (step (Settled i None) st) = Some img'
                    /\ status img' = failed
                    /\ processedUrl img' = processedUrl img).
Proof.
  intros Hr E. pose proof (session_ok_reachable st Hr img E) as Hok.
  unfold session_ok in Hok.
  repeat split; try (destruct (status img); intuition congruence).
  intros i r Hi. exists (failed_of img).
  destruct (step_Settled_rejected st i r img Hi E) as [H _].
  rewrite H. auto.
Qed.

Lemma C1_processedUrl_and_status_witness :
  image (run two_runs_second_fails initial) = Some failed_after_completed
  /\ (status failed_after_completed = completed
      \/ status failed_after_completed = failed).
Proof.
  split; [reflexivity|].
  apply (C1_processedUrl_and_status (run two_runs_second_fails initial)
           failed_after_completed).
  - apply reachable_run. constructor.
  - reflexivity.
  - simpl. discriminate.
Defined.

(** ** A run that fails *)

(** What a run that fails leaves of the session it finds: every field but
    the status, which becomes 'failed'; progress and countdown are 0, the
    "Processing failed" toast is shown, and a new processing request on the
    same bytes is accepted. *)
Lemma failed_run_keeps_fields st i r img :
  inFlight st !! i = Some r ->
  image st = Some img ->
  let st' := step (Settled i None) st in
  (exists img', image st' = Some img'
     /\ status img' = failed
     /\ original img' = original img
     /\ originalUrl img' = originalUrl img
     /\ name img' = name img)
  /\ progress st' = 0%Z
  /\ timeLeft st' = 0%Z
  /\ toasts st' = (toasts st ++ [failedToast])%list
  /\ isProcessing st' = false
  /\ forall file, original img = Some file ->
       exists t, inFlight (step Process st')
                 = (inFlight st' ++ [mkRun file t])%list.
Proof.
  intros Hi E st'.
  destruct (step_Settled_rejected st i r img Hi E) as (Him & Hp & Hpr & Htl & _ & Hts & _).
  fold st' in Him, Hp, Hpr, Htl, Hts.
  split; [exists (failed_of img); repeat split; assumption|].
  repeat (split; [assumption|]).
  intros file Hf. exists (intervalCount st').
  unfold step, handle, handleProcess. rewrite Him. simpl. rewrite Hf, Hp.
  unfold flushEffects. normalize.
  unfold st'. rewrite (staleImage_step (Settled i None) st).
  reflexivity.
Qed.

(** C5.  The code on the failing input: a JPEG is uploaded, processing is
    requested and the segmentation call throws.  The session is marked
    'failed', progress and countdown are 0, the "Processing failed" toast
    is shown and the original bytes and the string of the original URL are
    those of before; but that URL, live before the failure, has been
    revoked by the cleanup effect that React runs for the changed [image],
    so the session's original revocable reference is not what it was. *)
Theorem C5_failed_run_revokes_original_url :
  image processing_cat = Some (pending_of jpeg_2MiB jpeg_small (blobUrl 0))
  /\ image (step (Settled 0 None) processing_cat)
     = Some (failed_of (pending_of jpeg_2MiB jpeg_small (blobUrl 0)))
  /\ progress (step (Settled 0 None) processing_cat) = 0%Z
  /\ timeLeft (step (Settled 0 None) processing_cat) = 0%Z
  /\ toasts (step (Settled 0 None) processing_cat)
     = (toasts processing_cat ++ [failedToast])%list
  /\ (blobUrl 0 ∈ objectUrls processing_cat)
  /\ (blobUrl 0 ∉ objectUrls (step (Settled 0 None) processing_cat)).
Proof.
  do 5 (split; [reflexivity|]).
  split; apply (bool_decide_unpack _); vm_compute; exact I.
Qed.

(** ** Re-entrancy *)

(** C7 as stated fails in its last part: delete resets [isProcessing] while
    the segmentation call is still pending, so after a new upload a second
    run is started next to the first. *)
Lemma C7_counterexample :
  ~ (forall st, reachable st -> length (inFlight st) <= 1).
Proof.
  intros H.
  specialize (H (run delete_during_run initial)
                (reachable_run _ _ reachable_initial)).
  vm_compute in H. lia.
Qed.

(** C7, amended.  While [isProcessing] is true a processing request is
    ignored: the state after it is the state before it, so no run is
    started. *)
Theorem C7_request_ignored_while_processing st :
  reachable st ->
  isProcessing st = true ->
  step Process st = st
  /\ inFlight (step Process st) = inFlight st.
Proof.
  intros Hr Hp.
  assert (H : step Process st = st).
  { unfold step, handle, handleProcess. rewrite Hp.
    destruct (image st) as [img|]; [destruct (original img)|];
      apply flushEffects_synced, reachable_synced, Hr. }
  rewrite H. auto.
Qed.

Lemma C7_request_ignored_while_processing_witness :
  step Process processing_cat = processing_cat.
Proof.
  apply (C7_request_ignored_while_processing processing_cat).
  - apply reachable_run. constructor.
  - reflexivity.
Defined.

(** ** The URL registry *)

Lemma revoked_subseteq u urls : revoked u urls ⊆ urls.
Proof. unfold revoked. destruct (truthy u); set_solver. Qed.

Lemma revokedSome_subseteq u urls : revokedSome u urls ⊆ urls.
Proof. destruct u; simpl; [apply revoked_subseteq | set_solver]. Qed.

Lemma cleaned_subseteq img urls : cleaned img urls ⊆ urls.
Proof.
  destruct img as [i|]; simpl; [|set_solver].
  etrans; [apply revokedSome_subseteq | apply revoked_subseteq].
Qed.

Lemma blobUrl_inj k n : blobUrl k = blobUrl n -> k = n.
Proof.
  unfold blobUrl. simpl. intros [= H]. exact (pretty_nat_inj _ _ H).
Qed.

Lemma urlCount_flushEffects st : urlCount (flushEffects st) = urlCount st.
Proof.
  unfold flushEffects. destruct (staleImage st); [|reflexivity].
  rewrite cleanup_eq. reflexivity.
Qed.

Lemma objectUrls_flushEffects st : objectUrls (flushEffects st) ⊆ objectUrls st.
Proof.
  unfold flushEffects. destruct (staleImage st); [|set_solver].
  rewrite cleanup_eq. cbn. apply cleaned_subseteq.
Qed.

Ltac subset_tac :=
  cbn;
  repeat first
    [ reflexivity
    | etrans; [apply revokedSome_subseteq|]
    | etrans; [apply revoked_subseteq|]
    | set_solver ].

Ltac urls_tac := cbn; split; [reflexivity | subset_tac].

(** A handler hands out at most one URL, and registers no other. *)
Lemma handle_urls ev st :
  (urlCount (handle ev st) = urlCount st
   /\ objectUrls (handle ev st) ⊆ objectUrls st)
  \/ (urlCount (handle ev st) = S (urlCount st)
      /\ objectUrls (handle ev st) ⊆ {[blobUrl (urlCount st)]} ∪ objectUrls st).
Proof.
  destruct ev; unfold handle.
  - unfold handleFileChange. destruct files0 as [file|]; [|left; urls_tac].
    destruct (validate file); [left; urls_tac|]. destruct c; [|left; urls_tac].
    right. normalize. urls_tac.
  - unfold handleDrop, handleFileChange. destruct files0 as [file|]; [|left; urls_tac].
    destruct (validate file); [left; urls_tac|]. destruct c; [|left; urls_tac].
    right. normalize. urls_tac.
  - left. urls_tac.
  - left. urls_tac.
  - left. unfold handleProcess. destruct (image st) as [img|]; [|urls_tac].
    destruct (original img); [|urls_tac]. destruct (isProcessing st); urls_tac.
  - left. destruct (inFlight st !! i); urls_tac.
  - left. unfold tick. repeat break_match; urls_tac.
  - destruct (inFlight st !! i); [|left; urls_tac]. destruct result.
    + right. normalize. destruct (image st); normalize; urls_tac.
    + left. normalize. destruct (timerRef st); cbn;
        destruct (image st); normalize; urls_tac.
  - unfold handleDownload. destruct (image st) as [img|]; [|left; urls_tac].
    destruct (processed img); [|left; urls_tac].
    destruct (truthy (name img)); [|left; urls_tac].
    right. normalize. urls_tac.
  - left. unfold handleDelete. destruct (image st) as [img|]; [|urls_tac].
    destruct (isProcessing st), (fileInputRef st) eqn:F; normalize;
      rewrite ?F; urls_tac.
  - left. urls_tac.
Qed.

Lemma step_urls ev st :
  urlCount st <= urlCount (step ev st)
  /\ forall u, u ∈ objectUrls (step ev st) ->
       u ∈ objectUrls st \/ known (step ev st) u.
Proof.
  unfold step.
  pose proof (objectUrls_flushEffects (handle ev st)) as Hf.
  unfold known. rewrite urlCount_flushEffects.
  destruct (handle_urls ev st) as [[-> Hs] | [-> Hs]].
  - split; [lia|]. set_solver.
  - split; [lia|]. intros u Hu.
    assert (Hu' : u ∈ {[blobUrl (urlCount st)]} ∪ objectUrls st) by set_solver.
    apply elem_of_union in Hu' as [Hu' | Hu']; [|auto].
    apply elem_of_singleton in Hu'. right. exists (urlCount st). split; [lia|exact Hu'].
Qed.

Lemma known_mono st st' u :
  urlCount st <= urlCount st' -> known st u -> known st' u.
Proof. intros Hle (k & Hk & ->). exists k. split; [lia | reflexivity]. Qed.

(** The URLs of the session a handler leaves are those of the session it
    found or the one it has just created. *)
Lemma image_handle_urls ev st img :
  image (handle ev st) = Some img ->
  (exists prev, image st = Some prev
     /\ originalUrl img = originalUrl prev
     /\ (processedUrl img = processedUrl prev
         \/ (processedUrl img = Some (blobUrl (urlCount st))
             /\ urlCount (handle ev st) = S (urlCount st))))
  \/ (originalUrl img = blobUrl (urlCount st)
      /\ processedUrl img = None
      /\ urlCount (handle ev st) = S (urlCount st)).
Proof.
  destruct ev; unfold handle.
  - unfold handleFileChange. destruct files0 as [file|]; [|eauto 10].
    destruct (validate file); [eauto 10|]. destruct c; [|eauto 10].
    normalize. intros E. injection E as <-. right. auto.
  - unfold handleDrop, handleFileChange. destruct files0 as [file|]; [|eauto 10].
    destruct (validate file); [eauto 10|]. destruct c; [|eauto 10].
    normalize. intros E. injection E as <-. right. auto.
  - eauto 10.
  - eauto 10.
  - rewrite image_handleProcess. eauto 10.
  - destruct (inFlight st !! i); eauto 10.
  - rewrite image_tick. eauto 10.
  - destruct (inFlight st !! i); [|eauto 10]. destruct result.
    + rewrite image_handleProcess_resolved. cbn [image urlCount set_inFlight].
      destruct (image st) as [prev|] eqn:E; [|intros ?; discriminate].
      intros [= <-]. left. exists prev. split; [reflexivity|].
      split; [reflexivity|]. right. split; [reflexivity|].
      normalize. rewrite E. normalize. reflexivity.
    + rewrite image_handleProcess_rejected. cbn [image urlCount set_inFlight].
      destruct (image st) as [prev|] eqn:E; [|intros ?; discriminate].
      intros [= <-]. left. exists prev. auto.
  - rewrite image_handleDownload. eauto 10.
  - rewrite image_handleDelete. intros ?; discriminate.
  - eauto 10.
Qed.

Lemma urls_ok_reachable st : reachable st -> urls_ok st.
Proof.
  induction 1 as [|st ev Hr [IH1 IH2]].
  - split; [set_solver | discriminate].
  - destruct (step_urls ev st) as [Hle Hu]. split.
    + intros u Hin. destruct (Hu u Hin) as [Ho | Hk]; [|exact Hk].
      eapply known_mono; [exact Hle | apply IH1, Ho].
    + intros img. rewrite image_step. intros Him.
      assert (Hc : urlCount (step ev st) = urlCount (handle ev st))
        by apply urlCount_flushEffects.
      destruct (image_handle_urls ev st img Him)
        as [(prev & E & Ho & Hp) | (Ho & Hp & Hn)].
      * destruct (IH2 prev E) as [Ko Kp]. split.
        -- rewrite Ho. eapply known_mono; [exact Hle | exact Ko].
        -- intros u Hup. destruct Hp as [Hp | [Hp Hn]].
           ++ rewrite Hp in Hup. eapply known_mono; [exact Hle | apply Kp, Hup].
           ++ rewrite Hp in Hup. injection Hup as <-.
              exists (urlCount st). split; [lia | reflexivity].
      * split.
        -- rewrite Ho. exists (urlCount st). split; [lia | reflexivity].
        -- rewrite Hp. discriminate.
Qed.

(** The next URL is not live yet, and no live URL is the empty string. *)
Lemma next_url_fresh st : reachable st -> blobUrl (urlCount st) ∉ objectUrls st.
Proof.
  intros Hr Hin. destruct (urls_ok_reachable st Hr) as [H _].
  destruct (H _ Hin) as (k & Hk & E). apply blobUrl_inj in E. lia.
Qed.

Lemma known_truthy st u : known st u -> truthy u = true.
Proof. intros (k & _ & ->). reflexivity. Qed.

(** ** Delete *)

(** C4 as stated fails: with no session [handleDelete] returns at once and
    reports nothing; and a URL created for the result of a run that outlived
    its session stays live through a later delete. *)
Lemma C4_counterexample :
  (image initial = None /\ toasts (step Delete initial) = [])
  /\ (image (run result_after_delete initial) <> None
      /\ blobUrl 1 ∈ objectUrls (step Delete (run result_after_delete initial))).
Proof.
  split; [split; reflexivity|]. split.
  - vm_compute. discriminate.
  - apply (bool_decide_unpack _). vm_compute. exact I.
Qed.

Lemma revoked_truthy u urls : truthy u = true -> revoked u urls = urls ∖ {[u]}.
Proof. unfold revoked. intros ->. reflexivity. Qed.

(** The state delete leaves when it finds the session [img]. *)
Lemma step_Delete_session st img :
  staleImage st = None ->
  image st = Some img ->
  step Delete st
  = {| image := None; isProcessing := false; progress := 0; isDragging := false;
       timeLeft := 0; timerRef := None;
       fileInputRef := match fileInputRef st with
                       | Some _ => Some ""
                       | None => None
                       end;
       objectUrls :=
         cleaned (Some img)
           (revokedSome (processedUrl img)
              (revoked (originalUrl img) (objectUrls st)));
       urlCount := urlCount st;
       intervals := cleared (timerRef st) (intervals st);
       intervalCount := intervalCount st;
       inFlight := inFlight st;
       toasts := toasts st ++ [deletedToast];
       saved := saved st;
       staleImage := None |}.
Proof.
  intros Hs E. unfold step, handle, handleDelete, flushEffects.
  destruct st as [im ip pr dr tl tr fi ou uc iv ic fl ts sv sl].
  cbn in Hs, E. subst im sl. cbn.
  destruct ip, fi; normalize; reflexivity.
Qed.

(** C4, amended.  With no session, delete changes nothing.  With a session,
    delete cancels the countdown timer held in [timerRef], releases both
    URLs of the session, leaves no session, sets [isProcessing] to false and
    progress and countdown to 0, empties the file input if it is mounted,
    and shows the success toast; if the session's URLs were the only live
    ones, none is live afterwards. *)
Theorem C4_delete st :
  reachable st ->
  (image st = None -> step Delete st = st)
  /\ (forall img, image st = Some img ->
        let st' := step Delete st in
        image st' = None
        /\ isProcessing st' = false
        /\ progress st' = 0%Z
        /\ timeLeft st' = 0%Z
        /\ isDragging st' = false
        /\ timerRef st' = None
        /\ (forall t, timerRef st = Some t -> t ∉ intervals st')
        /\ (originalUrl img ∉ objectUrls st')
        /\ (forall u, processedUrl img = Some u -> u ∉ objectUrls st')
        /\ fileInputRef st' = match fileInputRef st with
                              | Some _ => Some ""
                              | None => None
                              end
        /\ toasts st' = (toasts st ++ [deletedToast])%list
        /\ (objectUrls st ⊆ session_urls img -> objectUrls st' = ∅)).
Proof.
  intros Hr. pose proof (reachable_synced st Hr) as Hs. split.
  - intros E. unfold step, handle, handleDelete. rewrite E.
    apply flushEffects_synced, Hs.
  - intros img E st'. unfold st'. rewrite (step_Delete_session st img Hs E). cbn.
    destruct (urls_ok_reachable st Hr) as [_ Hk]. destruct (Hk img E) as [Ko Kp].
    apply known_truthy in Ko. rewrite !(revoked_truthy _ _ Ko).
    repeat (split; [reflexivity|]).
    split; [intros t ->; cbn; set_solver|].
    unfold session_urls.
    destruct (processedUrl img) as [u|]; cbn.
    + specialize (Kp u eq_refl). apply known_truthy in Kp.
      rewrite !(revoked_truthy _ _ Kp).
      split; [set_solver|]. split; [intros ? [= <-]; set_solver|].
      split; [reflexivity|]. split; [reflexivity|]. set_solver.
    + split; [set_solver|]. split; [intros ? [=]|].
      split; [reflexivity|]. split; [reflexivity|]. set_solver.
Qed.

Lemma C4_delete_witness :
  image (step Delete processing_cat) = None
  /\ objectUrls (step Delete processing_cat) = ∅.
Proof.
  destruct (C4_delete processing_cat) as [_ H].
  - apply reachable_run. constructor.
  - destruct (H (pending_of jpeg_2MiB jpeg_small (blobUrl 0)) eq_refl)
      as (H1 & _ & _ & _ & _ & _ & _ & _ & _ & _ & _ & H12).
    split; [exact H1|]. apply H12.
    apply (bool_decide_unpack _). vm_compute. exact I.
Defined.

(** ** An upload that replaces a session *)

(** The state an accepted upload leaves. *)
Lemma step_FileChange_accepted st file cf :
  staleImage st = None ->
  validate file = None ->
  step (FileChange (Some file) (inl cf)) st
  = {| image := Some (pending_of file cf (blobUrl (urlCount st)));
       isProcessing := false; progress := 0; isDragging := isDragging st;
       timeLeft := 0; timerRef := None;
       fileInputRef := fileInputRef st;
       objectUrls :=
         cleaned (image st) ({[blobUrl (urlCount st)]} ∪ objectUrls st);
       urlCount := S (urlCount st);
       intervals := cleared (timerRef st) (intervals st);
       intervalCount := intervalCount st;
       inFlight := inFlight st;
       toasts := toasts st;
       saved := saved st;
       staleImage := None |}.
Proof.
  intros Hs Hv. unfold step, handle, handleFileChange, flushEffects. rewrite Hv.
  destruct st as [im ip pr dr tl tr fi ou uc iv ic fl ts sv sl].
  cbn in Hs. subst sl. normalize. destruct im; normalize; reflexivity.
Qed.

(** C2 as stated fails: when [handleFileChange] has stored the new session,
    the URL of the session it replaced is still live. *)
Lemma C2_counterexample :
  ~ (forall st img file cf,
       reachable st -> image st = Some img -> validate file = None ->
       originalUrl img ∉ objectUrls (handleFileChange (Some file) (inl cf) st)).
Proof.
  intros H.
  apply (H uploaded (pending_of jpeg_2MiB jpeg_small (blobUrl 0))
           jpeg_2MiB jpeg_small).
  - apply reachable_run. constructor.
  - reflexivity.
  - reflexivity.
  - apply (bool_decide_unpack _). vm_compute. exact I.
Qed.

(** C2, amended.  When an upload is accepted while a session exists, the
    handler stores the new session and releases nothing; the URLs of the
    replaced session are released by the cleanup effect that follows, so
    that after the step neither is live, while the URL of the new session
    is. *)
Theorem C2_replaced_session_released st img file cf :
  reachable st ->
  image st = Some img ->
  validate file = None ->
  let st' := step (FileChange (Some file) (inl cf)) st in
  image st' = Some (pending_of file cf (blobUrl (urlCount st)))
  /\ (originalUrl img ∉ objectUrls st')
  /\ (forall u, processedUrl img = Some u -> u ∉ objectUrls st')
  /\ (blobUrl (urlCount st) ∈ objectUrls st')
  /\ objectUrls (handleFileChange (Some file) (inl cf) st)
     = {[blobUrl (urlCount st)]} ∪ objectUrls st.
Proof.
  intros Hr E Hv st'. unfold st'.
  rewrite (step_FileChange_accepted st file cf (reachable_synced st Hr) Hv).
  rewrite E. cbn.
  destruct (urls_ok_reachable st Hr) as [_ Hk]. destruct (Hk img E) as [Ko Kp].
  assert (Hne : originalUrl img <> blobUrl (urlCount st)).
  { destruct Ko as (k & Hlt & ->). intros Heq. apply blobUrl_inj in Heq. lia. }
  apply known_truthy in Ko. rewrite (revoked_truthy _ _ Ko).
  split; [reflexivity|].
  assert (Hh : objectUrls (handleFileChange (Some file) (inl cf) st)
               = {[blobUrl (urlCount st)]} ∪ objectUrls st).
  { unfold handleFileChange. rewrite Hv. normalize. reflexivity. }
  destruct (processedUrl img) as [u|]; cbn.
  - assert (Hnu : u <> blobUrl (urlCount st)).
    { destruct (Kp u eq_refl) as (k & Hlt & ->). intros Heq.
      apply blobUrl_inj in Heq. lia. }
    specialize (Kp u eq_refl). apply known_truthy in Kp.
    rewrite (revoked_truthy _ _ Kp).
    split; [set_solver|]. split; [intros ? [= <-]; set_solver|].
    split; [set_solver | exact Hh].
  - split; [set_solver|]. split; [intros ? [=]|].
    split; [set_solver | exact Hh].
Qed.

Lemma C2_replaced_session_released_witness :
  (blobUrl 0 ∉ objectUrls (step (FileChange (Some png_10MiB) (inl jpeg_small)) uploaded))
  /\ (blobUrl 1 ∈ objectUrls (step (FileChange (Some png_10MiB) (inl jpeg_small)) uploaded)).
Proof.
  destruct (C2_replaced_session_released uploaded
              (pending_of jpeg_2MiB jpeg_small (blobUrl 0)) png_10MiB jpeg_small)
    as (_ & H1 & _ & H2 & _).
  - apply reachable_run. constructor.
  - reflexivity.
  - reflexivity.
  - split; [exact H1 | exact H2].
Defined.

(** ** Download *)

Lemma ext_chars_dotless r :
  final_extension r = None -> ext_chars r = slash_free r.
Proof.
  induction r as [|c r IH]; simpl; [reflexivity|].
  destruct (final_extension r); [discriminate|].
  destruct (is_dot c); [discriminate|]. intros _. rewrite IH by reflexivity.
  destruct (is_slash c); reflexivity.
Qed.

Lemma ext_chars_dotted r e : final_extension r = Some e -> ext_chars r = false.
Proof.
  revert e. induction r as [|c r IH]; simpl; intros e; [discriminate|].
  destruct (final_extension r) as [e'|].
  - intros _. rewrite (IH e' eq_refl). apply andb_false_r.
  - destruct (is_dot c); [|discriminate]. intros _.
    rewrite andb_false_r. reflexivity.
Qed.

Lemma ext_here_cons c r :
  ext_here (String c r) = is_dot c && truthy r && ext_chars r.
Proof. destruct r; unfold ext_here; destruct (is_dot c); reflexivity. Qed.

Lemma strip_extension_cons c r :
  strip_extension (String c r)
  = if ext_here (String c r) then EmptyString else String c (strip_extension r).
Proof. reflexivity. Qed.

Lemma strip_extension_dotless r :
  final_extension r = None -> strip_extension r = r /\ stem r = r.
Proof.
  induction r as [|c r IH]; [split; reflexivity|].
  rewrite strip_extension_cons, ext_here_cons. simpl.
  destruct (final_extension r); [discriminate|].
  destruct (is_dot c); [discriminate|]. intros _.
  destruct (IH eq_refl) as [-> ->]. split; reflexivity.
Qed.

(** What [replace(/\.[^/.]+$/, '')] does to a name: it removes the final
    extension with its dot when that extension is removable, and nothing
    otherwise. *)
Lemma strip_extension_spec n :
  strip_extension n
  = match final_extension n with
    | Some e => if removable e then stem n else n
    | None => n
    end.
Proof.
  induction n as [|c r IH]; [reflexivity|].
  rewrite strip_extension_cons, ext_here_cons.
  cbn [final_extension stem].
  destruct (final_extension r) as [e|] eqn:E.
  - rewrite (ext_chars_dotted r e E), andb_false_r. rewrite IH.
    destruct (removable e); reflexivity.
  - destruct (strip_extension_dotless r E) as [Hs Ht].
    rewrite (ext_chars_dotless r E). destruct (is_dot c); simpl.
    + unfold removable. destruct (truthy r && slash_free r); [reflexivity|].
      rewrite Hs. reflexivity.
    + rewrite Hs. reflexivity.
Qed.

(** C8 as stated fails: the name "archive." ends in a dot, the regular
    expression wants a character after the dot, nothing is stripped, and
    the file is saved as "processed_archive..png". *)
Lemma C8_counterexample :
  ~ (forall st img,
       reachable st -> image st = Some img -> status img = completed ->
       exists b, saved (step Download st)
                 = (saved st
                    ++ [("processed_" +:+ stem (name img) +:+ ".png", b)])%list).
Proof.
  intros H.
  destruct (H completed_archive
              (completed_of (pending_of dotted_png dotted_png (blobUrl 0))
                 (mkBlob 9 "image/png") (blobUrl 1)))
    as [b Hb].
  - apply reachable_run. constructor.
  - reflexivity.
  - reflexivity.
  - vm_compute in Hb. discriminate Hb.
Qed.

Lemma truthy_nonempty s : s <> "" -> truthy s = true.
Proof. destruct s; [congruence | reflexivity]. Qed.

(** C8, amended.  For a completed session whose original filename [n] is not
    empty, download saves the processed bytes as "processed_" + s + ".png",
    where s is [n] without its final extension when [n] has a dot followed
    by at least one character and no slash after its last dot, and s is [n]
    itself otherwise; the temporary URL it creates is revoked again, and
    the state after it differs from the state before it only in the list of
    saved files and the count of URLs handed out. *)
Theorem C8_download st img :
  reachable st ->
  image st = Some img ->
  status img = completed ->
  name img <> "" ->
  exists b,
    processed img = Some b
    /\ step Download st
       = set_saved (saved st ++ [(downloadName (name img), b)])
           (set_urlCount (S (urlCount st)) st)
    /\ downloadName (name img)
       = "processed_"
         +:+ match final_extension (name img) with
             | Some e => if removable e then stem (name img) else name img
             | None => name img
             end
         +:+ ".png"
    /\ image (step Download st) = image st.
Proof.
  intros Hr E Hc Hn.
  pose proof (session_ok_reachable st Hr img E) as Hok.
  unfold session_ok in Hok. rewrite Hc in Hok. destruct Hok as [Hp _].
  destruct (processed img) as [b|] eqn:P; [|congruence].
  exists b. split; [reflexivity|].
  assert (Hstep : step Download st
                  = set_saved (saved st ++ [(downloadName (name img), b)])
                      (set_urlCount (S (urlCount st)) st)).
  { unfold step, handle, handleDownload. rewrite E, P, (truthy_nonempty _ Hn).
    pose proof (next_url_fresh st Hr) as Hf.
    pose proof (reachable_synced st Hr) as Hs.
    unfold flushEffects. normalize. rewrite Hs.
    destruct st as [im ip pr dr tl tr fi ou uc iv ic fl ts sv sl].
    cbn in *. unfold set_objectUrls, set_saved, set_urlCount. cbn.
    f_equal. set_solver. }
  split; [exact Hstep|]. split.
  - unfold downloadName. rewrite strip_extension_spec. reflexivity.
  - rewrite Hstep. reflexivity.
Qed.

Lemma C8_download_witness :
  saved (step Download completed_cat)
  = [("processed_cat.png", mkBlob 9 "image/png")].
Proof.
  destruct (C8_download completed_cat
              (completed_of (pending_of jpeg_2MiB jpeg_small (blobUrl 0))
                 (mkBlob 9 "image/png") (blobUrl 1)))
    as (b & Hb & Hs & _).
  - apply reachable_run. constructor.
  - reflexivity.
  - reflexivity.
  - simpl. discriminate.
  - rewrite Hs. simpl in Hb. injection Hb as <-. reflexivity.
Defined.

(** ** The progress callback *)

Local Open Scope Q_scope.

Lemma round_half_even_bounds q :
  (Qfloor q <= round_half_even q <= Qfloor q + 1)%Z.
Proof.
  unfold round_half_even.
  destruct (Qcompare _ _); [destruct (Z.even _)|..]; lia.
Qed.

Lemma round_half_even_Z n : round_half_even (inject_Z n) = n.
Proof.
  unfold round_half_even. rewrite Qfloor_Z.
  destruct (Qcompare_spec (inject_Z n - inject_Z n) (1 # 2)) as [H|H|H];
    [lra | reflexivity | lra].
Qed.

Lemma round_half_even_mono q q' :
  q <= q' -> (round_half_even q <= round_half_even q')%Z.
Proof.
  intros Hle. pose proof (Qfloor_resp_le q q' Hle) as Hf.
  pose proof (round_half_even_bounds q) as Hb.
  pose proof (round_half_even_bounds q') as Hb'.
  destruct (Z.eq_dec (Qfloor q) (Qfloor q')) as [Heq|Hne]; [|lia].
  clear Hb Hb' Hf. unfold round_half_even. rewrite <- Heq.
  destruct (Qcompare_spec (q - inject_Z (Qfloor q)) (1 # 2)) as [H|H|H];
    destruct (Qcompare_spec (q' - inject_Z (Qfloor q)) (1 # 2)) as [H'|H'|H'];
    try destruct (Z.even (Qfloor q)); try lia; lra.
Qed.

Lemma two_nonzero : ~ 2 == 0.
Proof. intros H. discriminate H. Qed.

Lemma pow2_pos k : 0 < Qpower 2 k.
Proof. apply Qpower_0_lt. reflexivity. Qed.

Lemma pow2_le k k' : (k <= k')%Z -> Qpower 2 k <= Qpower 2 k'.
Proof. intros H. apply Qpower_le_compat_l; [exact H | discriminate]. Qed.

Lemma pow2_plus k k' : Qpower 2 (k + k') == Qpower 2 k * Qpower 2 k'.
Proof. apply Qpower_plus, two_nonzero. Qed.

Lemma pow2_Z n : (0 <= n)%Z -> inject_Z (2 ^ n) == Qpower 2 n.
Proof. intros H. rewrite Zpower_Qpower by exact H. reflexivity. Qed.

(** [ilog2] is the floor of the binary logarithm. *)
Lemma ilog2_spec x :
  0 < x -> Qpower 2 (ilog2 x) <= x /\ x < Qpower 2 (ilog2 x + 1).
Proof.
  intros Hx. destruct x as [a b].
  assert (Ha : (0 < a)%Z).
  { unfold Qlt in Hx. simpl in Hx. lia. }
  unfold ilog2. cbn [Qnum Qden].
  set (la := Z.log2 a). set (lb := Z.log2 (Zpos b)).
  assert (Hla : (0 <= la)%Z) by apply Z.log2_nonneg.
  assert (Hlb : (0 <= lb)%Z) by apply Z.log2_nonneg.
  destruct (Z.log2_spec a Ha) as [Ha1 Ha2]. fold la in Ha1, Ha2.
  destruct (Z.log2_spec (Zpos b) ltac:(lia)) as [Hb1 Hb2]. fold lb in Hb1, Hb2.
  rewrite <- Z.add_1_r in Ha2, Hb2.
  assert (Qa1 : Qpower 2 la <= inject_Z a).
  { rewrite <- pow2_Z by exact Hla. rewrite <- Zle_Qle. exact Ha1. }
  assert (Qa2 : inject_Z a < Qpower 2 (la + 1)).
  { rewrite <- pow2_Z by lia. rewrite <- Zlt_Qlt. exact Ha2. }
  assert (Qb1 : Qpower 2 lb <= inject_Z (Zpos b)).
  { rewrite <- pow2_Z by exact Hlb. rewrite <- Zle_Qle. exact Hb1. }
  assert (Qb2 : inject_Z (Zpos b) < Qpower 2 (lb + 1)).
  { rewrite <- pow2_Z by lia. rewrite <- Zlt_Qlt. exact Hb2. }
  assert (Hxb : (a # b) * inject_Z (Zpos b) == inject_Z a).
  { rewrite (Qmake_Qdiv a b). field. discriminate. }
  pose proof (pow2_pos la). pose proof (pow2_pos lb).
  pose proof (pow2_pos (la + 1)). pose proof (pow2_pos (lb + 1)).
  assert (Hup : (a # b) < Qpower 2 (la - lb + 1)).
  { replace (la - lb + 1)%Z with ((la + 1) - lb)%Z by lia.
    rewrite Qpower_minus by apply two_nonzero.
    apply Qlt_shift_div_l; [assumption|]. nra. }
  destruct (Qle_bool (Qpower 2 (la - lb)) (a # b)) eqn:T.
  - apply Qle_bool_iff in T. split; assumption.
  - assert (Hlt : (a # b) < Qpower 2 (la - lb)).
    { apply Qnot_le_lt. intros Hle. apply Qle_bool_iff in Hle. congruence. }
    split.
    + replace (la - lb - 1)%Z with (la - (lb + 1))%Z by lia.
      rewrite Qpower_minus by apply two_nonzero.
      apply Qle_shift_div_r; [assumption|]. nra.
    + replace (la - lb - 1 + 1)%Z with (la - lb)%Z by lia. exact Hlt.
Qed.

Lemma ilog2_mono x y : 0 < x -> x <= y -> (ilog2 x <= ilog2 y)%Z.
Proof.
  intros Hx Hle.
  destruct (ilog2_spec x Hx) as [Hx1 _].
  destruct (ilog2_spec y ltac:(lra)) as [_ Hy2].
  destruct (Z_lt_le_dec (ilog2 y) (ilog2 x)) as [Hlt|]; [|assumption].
  pose proof (pow2_le (ilog2 y + 1) (ilog2 x) ltac:(lia)). lra.
Qed.

Lemma binade_mono x y : 0 < x -> x <= y -> (binade x <= binade y)%Z.
Proof. intros Hx Hle. unfold binade. pose proof (ilog2_mono x y Hx Hle). lia. Qed.

Lemma binade_upper x : 0 < x -> x < Qpower 2 (binade x + 1).
Proof.
  intros Hx. destruct (ilog2_spec x Hx) as [_ H].
  pose proof (pow2_le (ilog2 x + 1) (binade x + 1) ltac:(unfold binade; lia)).
  lra.
Qed.

Lemma binade_lower x : 0 < x -> (-1022 < binade x)%Z -> Qpower 2 (binade x) <= x.
Proof.
  intros Hx Hb. destruct (ilog2_spec x Hx) as [H _].
  replace (binade x) with (ilog2 x) by (unfold binade in *; lia). exact H.
Qed.

Lemma round_pos_nonneg x : 0 < x -> 0 <= round_pos x.
Proof.
  intros Hx. unfold round_pos.
  pose proof (pow2_pos (52 - binade x)). pose proof (pow2_pos (binade x - 52)).
  assert (0 <= x * Qpower 2 (52 - binade x)) by nra.
  pose proof (round_half_even_mono 0 _ H1) as Hr.
  change 0 with (inject_Z 0) in Hr at 1. rewrite round_half_even_Z in Hr.
  rewrite Zle_Qle in Hr. change (inject_Z 0) with 0 in Hr. nra.
Qed.

Lemma round_pos_mono x y : 0 < x -> x <= y -> round_pos x <= round_pos y.
Proof.
  intros Hx Hle. assert (Hy : 0 < y) by lra.
  pose proof (binade_mono x y Hx Hle) as He.
  unfold round_pos.
  set (e := binade x) in *. set (e' := binade y) in *.
  pose proof (pow2_pos (52 - e)) as P1. pose proof (pow2_pos (e - 52)) as P2.
  pose proof (pow2_pos (52 - e')) as P3. pose proof (pow2_pos (e' - 52)) as P4.
  destruct (Z.eq_dec e e') as [Heq|Hne].
  - rewrite <- Heq.
    assert (Hs : x * Qpower 2 (52 - e) <= y * Qpower 2 (52 - e)) by nra.
    apply round_half_even_mono in Hs. rewrite Zle_Qle in Hs. nra.
  - assert (Hlt : (e + 1 <= e')%Z) by lia.
    pose proof (binade_upper x Hx) as Ux. fold e in Ux.
    pose proof (binade_lower y Hy) as Ly. fold e' in Ly.
    specialize (Ly ltac:(unfold e, binade in *; lia)).
    pose proof (pow2_le _ _ Hlt) as Hmid.
    (* the rounding of [x] stays below the top of its binade *)
    assert (Hx53 : x * Qpower 2 (52 - e) <= inject_Z (2 ^ 53)).
    { rewrite pow2_Z by lia.
      replace 53%Z with ((e + 1) + (52 - e))%Z by lia. rewrite pow2_plus. nra. }
    apply round_half_even_mono in Hx53. rewrite round_half_even_Z in Hx53.
    rewrite Zle_Qle in Hx53. rewrite pow2_Z in Hx53 by lia.
    assert (Hxe : Qpower 2 53 * Qpower 2 (e - 52) == Qpower 2 (e + 1)).
    { rewrite <- pow2_plus. replace (53 + (e - 52))%Z with (e + 1)%Z by lia.
      reflexivity. }
    (* the rounding of [y] stays above the bottom of its binade *)
    assert (Hy52 : inject_Z (2 ^ 52) <= y * Qpower 2 (52 - e')).
    { rewrite pow2_Z by lia.
      replace 52%Z with (e' + (52 - e'))%Z at 1 by lia. rewrite pow2_plus. nra. }
    apply round_half_even_mono in Hy52. rewrite round_half_even_Z in Hy52.
    rewrite Zle_Qle in Hy52. rewrite pow2_Z in Hy52 by lia.
    assert (Hye : Qpower 2 52 * Qpower 2 (e' - 52) == Qpower 2 e').
    { rewrite <- pow2_plus. replace (52 + (e' - 52))%Z with e' by lia.
      reflexivity. }
    nra.
Qed.

Lemma double_round_mono x y : 0 <= x -> x <= y -> double_round x <= double_round y.
Proof.
  intros Hx Hle. unfold double_round.
  destruct (Qcompare_spec x 0) as [Ex|Lx|Gx]; [|lra|].
  - destruct (Qcompare_spec y 0) as [Ey|Ly|Gy]; [lra | lra |].
    apply round_pos_nonneg. exact Gy.
  - destruct (Qcompare_spec y 0) as [Ey|Ly|Gy]; [lra | lra |].
    apply round_pos_mono; assumption.
Qed.

Lemma progressValue_mono p q :
  0 <= p -> p <= q -> (progressValue p <= progressValue q)%Z.
Proof.
  intros Hp Hle. unfold progressValue. apply Qfloor_resp_le.
  apply double_round_mono; lra.
Qed.

Lemma progressValue_0 : progressValue 0 = 0%Z.
Proof. reflexivity. Qed.

Lemma progressValue_1 : progressValue 1 = 100%Z.
Proof. vm_compute. reflexivity. Qed.

(** Doubles represent the integers from 0 to 101 exactly. *)
Lemma double_round_percent n :
  (0 <= n <= 101)%Z -> double_round (inject_Z n) == inject_Z n.
Proof.
  intros Hn.
  assert (H : forallb (fun k => Qeq_bool (double_round (inject_Z (Z.of_nat k)))
                                  (inject_Z (Z.of_nat k)))
                (seq 0 102) = true) by (vm_compute; reflexivity).
  rewrite forallb_forall in H.
  specialize (H (Z.to_nat n)). rewrite Z2Nat.id in H by lia.
  apply Qeq_bool_iff, H, in_seq. lia.
Qed.

(** The percentage stored is the floor of the exact product or one more:
    rounding the product can only reach the next integer. *)
Lemma progressValue_exact p :
  0 <= p -> p <= 1 ->
  (Qfloor (p * 100) <= progressValue p <= Qfloor (p * 100) + 1)%Z.
Proof.
  intros H0 H1. set (n := Qfloor (p * 100)).
  pose proof (Qfloor_le (p * 100)) as Hl. pose proof (Qlt_floor (p * 100)) as Hu.
  fold n in Hl, Hu.
  assert (Hn0 : (0 <= n)%Z).
  { change 0%Z with (Qfloor (inject_Z 0)). apply Qfloor_resp_le.
    change (inject_Z 0) with 0. lra. }
  assert (Hn1 : (n <= 100)%Z).
  { change 100%Z with (Qfloor (inject_Z 100)). apply Qfloor_resp_le.
    change (inject_Z 100) with 100. lra. }
  assert (Hn0' : 0 <= inject_Z n).
  { change 0 with (inject_Z 0). rewrite <- Zle_Qle. exact Hn0. }
  unfold progressValue. split.
  - rewrite <- (Qfloor_Z n) at 1. apply Qfloor_resp_le.
    rewrite <- (double_round_percent n) by lia.
    apply double_round_mono; assumption.
  - rewrite <- (Qfloor_Z (n + 1)). apply Qfloor_resp_le.
    rewrite <- (double_round_percent (n + 1)) by lia.
    apply double_round_mono; lra.
Qed.

(** On the double nearest to 0.35 the product [p * 100] is rounded to the
    double 35, while the exact rational product is below 35. *)
Remark progressValue_035 :
  progressValue p_035 = 35%Z /\ Qfloor (p_035 * 100) = 34%Z.
Proof. split; vm_compute; reflexivity. Qed.

Lemma step_Progress st i r p :
  reachable st ->
  inFlight st !! i = Some r ->
  step (Progress i p) st = onProgress p st.
Proof.
  intros Hr Hi. unfold step, handle. rewrite Hi.
  apply flushEffects_synced. apply (reachable_synced st Hr).
Qed.

(** C9 as stated fails: the double nearest to 0.35 is a progress in [0,1];
    its product with 100 is rounded to the double 35, so the percentage
    stored is 35, while the floor of [p * 100] is 34. *)
Lemma C9_counterexample :
  ~ (forall st i r p,
       reachable st -> inFlight st !! i = Some r -> 0 <= p -> p <= 1 ->
       progress (step (Progress i p) st) = Qfloor (p * 100)).
Proof.
  intros H.
  specialize (H processing_cat 0%nat (mkRun jpeg_small 1) p_035
                (reachable_run _ _ reachable_initial) eq_refl).
  assert (E : progress (step (Progress 0 p_035) processing_cat) = 35%Z)
    by (vm_compute; reflexivity).
  rewrite E in H.
  assert (E' : Qfloor (p_035 * 100) = 34%Z) by (vm_compute; reflexivity).
  rewrite E' in H.
  discriminate H; vm_compute; discriminate.
Qed.

(** C9, amended.  For a progress [p] in [0,1] reported by a pending
    segmentation call, the percentage stored is the floor of the double
    product [p * 100]; it is the floor of the exact product or one more, an
    integer between 0 and 100; and a later report [q] with [p <= q <= 1]
    stores a percentage that is not smaller. *)
Theorem C9_progress_percentage st i r p q :
  reachable st ->
  inFlight st !! i = Some r ->
  0 <= p -> p <= q -> q <= 1 ->
  progress (step (Progress i p) st) = Qfloor (double_round (p * 100))
  /\ (Qfloor (p * 100) <= progress (step (Progress i p) st)
      <= Qfloor (p * 100) + 1)%Z
  /\ (0 <= progress (step (Progress i p) st) <= 100)%Z
  /\ (progress (step (Progress i p) st)
      <= progress (step (Progress i q) (step (Progress i p) st)))%Z.
Proof.
  intros Hr Hi Hp Hpq Hq.
  rewrite (step_Progress st i r p Hr Hi).
  assert (Hr' : reachable (onProgress p st)).
  { rewrite <- (step_Progress st i r p Hr Hi). constructor. exact Hr. }
  rewrite (step_Progress (onProgress p st) i r q Hr' Hi).
  cbn [onProgress progress setProgress].
  split; [reflexivity|]. split; [apply progressValue_exact; lra|]. split.
  - rewrite <- progressValue_0, <- progressValue_1.
    split; apply progressValue_mono; lra.
  - apply progressValue_mono; assumption.
Qed.

Lemma C9_progress_percentage_witness :
  progress (step (Progress 0 p_035) processing_cat) = 35%Z
  /\ (Qfloor (p_035 * 100) <= progress (step (Progress 0 p_035) processing_cat)
      <= Qfloor (p_035 * 100) + 1)%Z
  /\ (progress (step (Progress 0 p_035) processing_cat)
      <= progress (step (Progress 0 p_half)
                     (step (Progress 0 p_035) processing_cat)))%Z.
Proof.
  destruct (C9_progress_percentage processing_cat 0 (mkRun jpeg_small 1)
              p_035 p_half) as (H1 & H2 & _ & H4).
  - apply reachable_run. constructor.
  - reflexivity.
  - vm_compute. discriminate.
  - vm_compute. discriminate.
  - vm_compute. discriminate.
  - split; [|split; [exact H2 | exact H4]]. rewrite H1. vm_compute. reflexivity.
Defined.

Local Close Scope Q_scope.

(** * The transitions in closed form *)

Ltac open_state st Hs :=
  destruct st as [im ip pr dr tl tr fi ou uc iv ic fl ts sv sl];
  cbn in Hs; subst sl.

Lemma step_Process_started st img file :
  staleImage st = None ->
  image st = Some img ->
  original img = Some file ->
  isProcessing st = false ->
  step Process st = after_process st file.
Proof.
  intros Hs E Ho Hp. unfold step, handle, handleProcess, flushEffects.
  rewrite E, Ho, Hp. open_state st Hs. normalize. reflexivity.
Qed.

Lemma step_Process_ignored st :
  staleImage st = None ->
  (image st = None
   \/ (exists img, image st = Some img /\ original img = None)
   \/ isProcessing st = true) ->
  step Process st = st.
Proof.
  intros Hs H. unfold step, handle, handleProcess.
  rewrite flushEffects_synced; [|repeat break_match; exact Hs].
  destruct H as [E | [(img & E & Ho) | Hp]].
  - rewrite E. reflexivity.
  - rewrite E, Ho. reflexivity.
  - rewrite Hp. repeat break_match; reflexivity.
Qed.

Lemma step_Settled_resolved st i r data :
  staleImage st = None ->
  inFlight st !! i = Some r ->
  step (Settled i (Some data)) st = after_resolved st i r data.
Proof.
  intros Hs Hi. unfold step, handle, flushEffects. rewrite Hi.
  unfold after_resolved. open_state st Hs. cbn in Hi. normalize.
  destruct im as [prev|]; normalize; reflexivity.
Qed.

Lemma step_Settled_failed st i r :
  staleImage st = None ->
  inFlight st !! i = Some r ->
  step (Settled i None) st = after_rejected st i r.
Proof.
  intros Hs Hi. unfold step, handle, flushEffects. rewrite Hi.
  unfold after_rejected. open_state st Hs. cbn in Hi. normalize.
  destruct tr as [t|], im as [prev|]; normalize; reflexivity.
Qed.

Lemma step_Settled_void st i result :
  staleImage st = None ->
  inFlight st !! i = None ->
  step (Settled i result) st = st.
Proof.
  intros Hs Hi. unfold step, handle. rewrite Hi. apply flushEffects_synced, Hs.
Qed.

Lemma step_upload_accepted st file cf :
  staleImage st = None ->
  validate file = None ->
  step (FileChange (Some file) (inl cf)) st = after_upload st file cf.
Proof. apply step_FileChange_accepted. Qed.

Lemma step_Delete_found st img :
  staleImage st = None ->
  image st = Some img ->
  step Delete st = after_delete st img.
Proof. apply step_Delete_session. Qed.

Lemma step_Delete_void st :
  staleImage st = None -> image st = None -> step Delete st = st.
Proof.
  intros Hs E. unfold step, handle, handleDelete. rewrite E.
  apply flushEffects_synced, Hs.
Qed.

Lemma step_Tick st t :
  staleImage st = None ->
  step (Tick t) st
  = if decide (t ∈ intervals st) then
      if (timeLeft st <=? 1)%Z
      then setTimeLeft 0 (set_intervals (intervals st ∖ {[t]}) st)
      else setTimeLeft (timeLeft st - 1) st
    else st.
Proof.
  intros Hs. unfold step, handle, tick, clearInterval.
  apply flushEffects_synced. repeat break_match; exact Hs.
Qed.

Lemma step_Download_saved st img b :
  reachable st ->
  image st = Some img ->
  processed img = Some b ->
  truthy (name img) = true ->
  step Download st = after_download st img b.
Proof.
  intros Hr E P Hn. unfold step, handle, handleDownload. rewrite E, P, Hn.
  pose proof (next_url_fresh st Hr) as Hf.
  pose proof (reachable_synced st Hr) as Hs.
  unfold flushEffects, after_download. normalize. rewrite Hs.
  destruct st as [im ip pr dr tl tr fi ou uc iv ic fl ts sv sl].
  cbn in *. unfold set_objectUrls, set_saved, set_urlCount. cbn.
  f_equal. set_solver.
Qed.

Lemma step_Download_void st :
  staleImage st = None ->
  (image st = None
   \/ exists img, image st = Some img
                  /\ (processed img = None \/ name img = "")) ->
  step Download st = st.
Proof.
  intros Hs H. unfold step, handle, handleDownload.
  destruct H as [E | (img & E & [P | Hn])]; rewrite E.
  - apply flushEffects_synced, Hs.
  - rewrite P. apply flushEffects_synced, Hs.
  - rewrite Hn. destruct (processed img); apply flushEffects_synced, Hs.
Qed.

Lemma step_Drop st f c :
  step (Drop f c) st = step (FileChange f c) (setIsDragging false st).
Proof. reflexivity. Qed.

(** To relate a state to its successor it is enough to do so for each
    outcome of each handler. *)
Lemma step_cases (P : State -> State -> Prop) :
  (forall st, P st st) ->
  (forall st b, P st (setIsDragging b st)) ->
  (forall st v, P st (set_fileInputRef v st)) ->
  (forall st st1 e,
     st1 = st \/ st1 = setIsDragging false st ->
     P st (toast (errorToast e) st1)) ->
  (forall st st1 file cf,
     st1 = st \/ st1 = setIsDragging false st ->
     validate file = None ->
     P st (after_upload st1 file cf)) ->
  (forall st img file,
     image st = Some img -> original img = Some file ->
     isProcessing st = false ->
     P st (after_process st file)) ->
  (forall st i r p, inFlight st !! i = Some r -> P st (onProgress p st)) ->
  (forall st t,
     t ∈ intervals st -> (timeLeft st <= 1)%Z ->
     P st (setTimeLeft 0 (set_intervals (intervals st ∖ {[t]}) st))) ->
  (forall st t,
     t ∈ intervals st -> (1 < timeLeft st)%Z ->
     P st (setTimeLeft (timeLeft st - 1) st)) ->
  (forall st i r data,
     inFlight st !! i = Some r -> P st (after_resolved st i r data)) ->
  (forall st i r,
     inFlight st !! i = Some r -> P st (after_rejected st i r)) ->
  (forall st img b,
     image st = Some img -> processed img = Some b ->
     truthy (name img) = true ->
     P st (after_download st img b)) ->
  (forall st img, image st = Some img -> P st (after_delete st img)) ->
  forall ev st, reachable st -> P st (step ev st).
Proof.
  intros Hid Hdrag Hinput Hrej Hup Hproc Hprog Htick0 Htick Hres Hfail Hdown Hdel
    ev st Hr.
  pose proof (reachable_synced st Hr) as Hs.
  assert (Hupload : forall f c st1,
            staleImage st1 = None ->
            st1 = st \/ st1 = setIsDragging false st ->
            (f = None -> P st st1) ->
            P st (step (FileChange f c) st1)).
  { intros f c st1 Hs1 H1 Hnone. destruct f as [file|].
    - destruct (rejection file c) as [e|] eqn:He.
      + rewrite (step_FileChange_rejected file c e st1 Hs1 He). apply Hrej, H1.
      + unfold rejection in He. destruct (validate file) eqn:Hv; [discriminate|].
        destruct c as [cf|]; [|discriminate].
        rewrite (step_upload_accepted st1 file cf Hs1 Hv). apply Hup; assumption.
    - unfold step, handle, handleFileChange.
      rewrite (flushEffects_synced _ Hs1). apply Hnone. reflexivity. }
  destruct ev.
  - apply Hupload; [exact Hs | left; reflexivity | intros _; apply Hid].
  - rewrite step_Drop. apply Hupload;
      [exact Hs | right; reflexivity | intros _; apply Hdrag].
  - unfold step, handle, handleDragOver.
    rewrite flushEffects_synced by exact Hs. apply Hdrag.
  - unfold step, handle, handleDragLeave.
    rewrite flushEffects_synced by exact Hs. apply Hdrag.
  - destruct (image st) as [img|] eqn:E.
    + destruct (original img) as [file|] eqn:Ho.
      * destruct (isProcessing st) eqn:Hp.
        -- rewrite step_Process_ignored by auto. apply Hid.
        -- rewrite (step_Process_started st img file Hs E Ho Hp).
           eapply Hproc; eassumption.
      * rewrite step_Process_ignored by eauto. apply Hid.
    + rewrite step_Process_ignored by auto. apply Hid.
  - unfold step, handle. destruct (inFlight st !! i) as [r|] eqn:Hi.
    + rewrite flushEffects_synced by exact Hs. eapply Hprog, Hi.
    + rewrite flushEffects_synced by exact Hs. apply Hid.
  - rewrite (step_Tick st timer Hs). destruct (decide (timer ∈ intervals st)).
    + destruct (Z.leb_spec (timeLeft st) 1); [apply Htick0 | apply (Htick st timer)];
        assumption.
    + apply Hid.
  - destruct (inFlight st !! i) as [r|] eqn:Hi.
    + destruct result as [data|].
      * rewrite (step_Settled_resolved st i r data Hs Hi). apply Hres, Hi.
      * rewrite (step_Settled_failed st i r Hs Hi). apply Hfail, Hi.
    + rewrite (step_Settled_void st i result Hs Hi). apply Hid.
  - destruct (image st) as [img|] eqn:E.
    + destruct (processed img) as [b|] eqn:Pb.
      * destruct (truthy (name img)) eqn:Hn.
        -- rewrite (step_Download_saved st img b Hr E Pb Hn). apply Hdown; assumption.
        -- rewrite step_Download_void; [apply Hid | exact Hs |].
           right. exists img. split; [exact E|]. right.
           destruct (name img); [reflexivity | discriminate].
      * rewrite step_Download_void; [apply Hid | exact Hs | eauto 6].
    + rewrite step_Download_void; [apply Hid | exact Hs | auto].
  - destruct (image st) as [img|] eqn:E.
    + rewrite (step_Delete_found st img Hs E). apply Hdel, E.
    + rewrite (step_Delete_void st Hs E). apply Hid.
  - unfold step, handle. rewrite flushEffects_synced by exact Hs. apply Hinput.
Qed.

(** * Invariants of the timers and flags *)

Lemma elem_of_delete_other {A} (l : list A) i x y :
  l !! i = Some x -> y ∈ l -> y <> x -> y ∈ delete i l.
Proof.
  intros Hi Hy Hne. apply list_elem_of_lookup in Hy as [j Hj].
  apply list_elem_of_lookup.
  destruct (lt_eq_lt_dec j i) as [[Hlt | ->] | Hgt].
  - exists j. rewrite list_lookup_delete_lt by exact Hlt. exact Hj.
  - congruence.
  - exists (pred j). rewrite list_lookup_delete_ge by lia.
    replace (S (pred j)) with j by lia. exact Hj.
Qed.

Lemma cleared_subseteq t ivs : cleared t ivs ⊆ ivs.
Proof. destruct t; simpl; set_solver. Qed.

Lemma timers_ok_step ev st :
  reachable st -> timers_ok st -> timers_ok (step ev st).
Proof.
  intros Hr. revert ev st Hr.
  apply (step_cases (fun st st' => timers_ok st -> timers_ok st'));
    unfold timers_ok.
  - auto.
  - intros st b H. exact H.
  - intros st v H. exact H.
  - intros st st1 e [-> | ->] H; exact H.
  - intros st st1 file cf Hst1 _ (Hi & Hp & Hs & Ht & Hf).
    assert (E : intervals st1 = intervals st /\ timerRef st1 = timerRef st
                /\ inFlight st1 = inFlight st
                /\ intervalCount st1 = intervalCount st)
      by (destruct Hst1 as [-> | ->]; auto).
    destruct E as (E1 & E2 & E3 & E4). cbn. rewrite E1, E2, E3, E4.
    pose proof (cleared_subseteq (timerRef st) (intervals st)).
    repeat split; try (intros; congruence); try lia.
    + intros t Hin. apply Hi. set_solver.
    + intros t Hin. apply Hf. set_solver.
  - intros st img file E Ho Hp (Hi & Hq & Hs & Ht & Hf). cbn.
    repeat split; try (intros; congruence); try lia.
    + intros t Hin. apply elem_of_union in Hin as [Hin | Hin].
      * apply elem_of_singleton in Hin. subst t.
        exists (mkRun file (intervalCount st)). split; [|reflexivity].
        apply elem_of_app. right. apply list_elem_of_singleton. reflexivity.
      * destruct (Hi t Hin) as (r & Hr & Ht').
        exists r. split; [|exact Ht']. apply elem_of_app. left. exact Hr.
    + intros t Hin. apply elem_of_union in Hin as [Hin | Hin].
      * apply elem_of_singleton in Hin. subst t. lia.
      * specialize (Hf t Hin). lia.
  - intros st i r p _ H. exact H.
  - intros st t Hin Hle (Hi & Hq & Hs & Ht & Hf). cbn.
    repeat split; try assumption; try lia.
    + intros t' Hin'. apply Hi. set_solver.
    + intros t' Hin'. apply Hf. set_solver.
  - intros st t Hin Hlt (Hi & Hq & Hs & Ht & Hf). cbn.
    repeat split; try assumption; lia.
  - intros st i r data Hr (Hi & Hq & Hs & Ht & Hf). cbn.
    repeat split; try (intros; congruence); try lia.
    + intros t Hin. apply elem_of_difference in Hin as [Hin Hne].
      destruct (Hi t Hin) as (r' & Hr' & Ht').
      exists r'. split; [|exact Ht'].
      apply (elem_of_delete_other _ i r); [exact Hr | exact Hr' |].
      intros ->. set_solver.
    + intros t Hin. apply Hf. set_solver.
  - intros st i r Hr (Hi & Hq & Hs & Ht & Hf). cbn.
    pose proof (cleared_subseteq (timerRef st) (intervals st ∖ {[run_timer r]})).
    repeat split; try (intros; congruence); try lia.
    + intros t Hin.
      assert (Hin' : t ∈ intervals st ∖ {[run_timer r]}) by set_solver.
      apply elem_of_difference in Hin' as [Hin' Hne].
      destruct (Hi t Hin') as (r' & Hr' & Ht').
      exists r'. split; [|exact Ht'].
      apply (elem_of_delete_other _ i r); [exact Hr | exact Hr' |].
      intros ->. set_solver.
    + intros t Hin. apply Hf. set_solver.
  - intros st img b _ _ _ H. exact H.
  - intros st img E (Hi & Hq & Hs & Ht & Hf). cbn.
    pose proof (cleared_subseteq (timerRef st) (intervals st)).
    repeat split; try (intros; congruence); try lia.
    + intros t Hin. apply Hi. set_solver.
    + intros t Hin. apply Hf. set_solver.
Qed.

Lemma timers_ok_reachable st : reachable st -> timers_ok st.
Proof.
  induction 1 as [|st ev Hr IH].
  - unfold timers_ok. cbn. repeat split; try (intros; congruence); try lia;
      set_solver.
  - apply timers_ok_step; assumption.
Qed.

Lemma session_data_ok_reachable st :
  reachable st -> forall img, image st = Some img -> session_data_ok img.
Proof.
  induction 1 as [|st ev Hr IH]; [discriminate|]. revert IH.
  revert ev st Hr.
  apply (step_cases (fun st st' =>
           (forall img, image st = Some img -> session_data_ok img) ->
           forall img, image st' = Some img -> session_data_ok img));
    try (intros; cbn in *; eauto; fail).
  - intros st st1 e [-> | ->] IH img; cbn; apply IH.
  - intros st st1 file cf _ _ _ img [= <-].
    split; [discriminate | intros b; discriminate].
  - intros st i r data _ IH img. cbn.
    destruct (image st) as [prev|]; [|discriminate]. intros [= <-].
    destruct (IH prev eq_refl) as [Ho _].
    split; [exact Ho|]. intros b [= <-]. reflexivity.
  - intros st i r _ IH img. cbn.
    destruct (image st) as [prev|]; [|discriminate]. intros [= <-].
    apply (IH prev eq_refl).
  - intros st img _ _ img'. discriminate.
Qed.

Lemma saved_ok_reachable st :
  reachable st -> forall entry, entry ∈ saved st -> saved_ok entry.
Proof.
  induction 1 as [|st ev Hr IH]; [intros entry Hin; cbn in Hin; set_solver|].
  pose proof (session_data_ok_reachable st Hr) as Hd.
  revert IH Hd. revert ev st Hr.
  apply (step_cases (fun st st' =>
           (forall entry, entry ∈ saved st -> saved_ok entry) ->
           (forall img, image st = Some img -> session_data_ok img) ->
           forall entry, entry ∈ saved st' -> saved_ok entry));
    try (intros; cbn in *; eauto; fail).
  - intros st st1 e [-> | ->] IH _ entry; cbn; apply IH.
  - intros st st1 file cf [-> | ->] _ IH _ entry; cbn; apply IH.
  - intros st img b E Pb _ IH Hd entry. cbn. intros Hin.
    apply elem_of_app in Hin as [Hin | Hin]; [apply IH, Hin|].
    apply list_elem_of_singleton in Hin. subst entry.
    split; [eexists; reflexivity|]. cbn. apply (Hd img E). exact Pb.
Qed.

(** * Countdown *)

(** X1.  In every reachable state the countdown is between 0 and 20. *)
Theorem countdown_within_bounds st :
  reachable st -> (0 <= timeLeft st <= 20)%Z.
Proof. intros Hr. apply (timers_ok_reachable st Hr). Qed.

Lemma countdown_within_bounds_witness : (0 <= timeLeft processing_cat <= 20)%Z.
Proof. apply (countdown_within_bounds processing_cat), reachable_run. constructor. Defined.

(** X2.  Every running interval timer is the timer of a pending
    segmentation call, so no timer runs when no call is pending. *)
Theorem running_timer_has_pending_run st :
  reachable st ->
  (forall t, t ∈ intervals st -> exists r, r ∈ inFlight st /\ run_timer r = t)
  /\ (inFlight st = [] -> intervals st = ∅).
Proof.
  intros Hr. destruct (timers_ok_reachable st Hr) as (Hi & _). split; [exact Hi|].
  intros Hnil. apply set_eq. intros t. split; [|set_solver].
  intros Hin. destruct (Hi t Hin) as (r & Hr' & _). rewrite Hnil in Hr'.
  set_solver.
Qed.

Lemma running_timer_has_pending_run_witness :
  intervals (step (Settled 0 (Some 9%N)) processing_cat) = ∅.
Proof.
  apply (running_timer_has_pending_run (step (Settled 0 (Some 9%N)) processing_cat)).
  - constructor. apply reachable_run. constructor.
  - reflexivity.
Defined.

(** X3.  When [isProcessing] is false, [timerRef] holds no timer; and
    [isProcessing] is true only while a session exists. *)
Theorem idle_component_has_no_timer st :
  reachable st ->
  (isProcessing st = false -> timerRef st = None)
  /\ (image st = None -> isProcessing st = false).
Proof.
  intros Hr. destruct (timers_ok_reachable st Hr) as (_ & Hp & Hs & _).
  split; [exact Hp|]. intros E. destruct (isProcessing st); [|reflexivity].
  destruct (Hs eq_refl E).
Qed.

Lemma idle_component_has_no_timer_witness :
  timerRef (step Delete processing_cat) = None.
Proof.
  apply (idle_component_has_no_timer (step Delete processing_cat)).
  - constructor. apply reachable_run. constructor.
  - reflexivity.
Defined.

Lemma run_app evs evs' st : run (evs ++ evs') st = run evs' (run evs st).
Proof. unfold run. apply fold_left_app. Qed.

Lemma ticks_count_down t k st :
  staleImage st = None ->
  t ∈ intervals st ->
  (Z.of_nat k < timeLeft st)%Z ->
  run (repeat (Tick t) k) st = setTimeLeft (timeLeft st - Z.of_nat k) st.
Proof.
  revert st. induction k as [|k IH]; intros st Hs Hin Hlt.
  - cbn. rewrite Z.sub_0_r. destruct st; reflexivity.
  - cbn [repeat run fold_left]. fold (run (repeat (Tick t) k)).
    rewrite (step_Tick st t Hs). rewrite decide_True by exact Hin.
    destruct (Z.leb_spec (timeLeft st) 1) as [Hle|_]; [lia|].
    rewrite IH; [| exact Hs | exact Hin | cbn; lia].
    cbn. unfold setTimeLeft. cbn. f_equal. lia.
Qed.

(** X4.  While the timer [t] of a run is active and nothing else happens,
    each of its ticks takes one off the countdown; the tick that finds the
    countdown at 1 sets it to 0 and cancels the timer, after which its
    ticks are void.  Ticks change nothing but the countdown and the set of
    running timers. *)
Theorem countdown_runs_down st t :
  reachable st ->
  t ∈ intervals st ->
  (1 <= timeLeft st)%Z ->
  (forall k, (Z.of_nat k < timeLeft st)%Z ->
     run (repeat (Tick t) k) st = setTimeLeft (timeLeft st - Z.of_nat k) st)
  /\ run (repeat (Tick t) (Z.to_nat (timeLeft st))) st
     = setTimeLeft 0 (set_intervals (intervals st ∖ {[t]}) st)
  /\ step (Tick t) (run (repeat (Tick t) (Z.to_nat (timeLeft st))) st)
     = run (repeat (Tick t) (Z.to_nat (timeLeft st))) st.
Proof.
  intros Hr Hin Hge. pose proof (reachable_synced st Hr) as Hs.
  assert (Hall : forall k, (Z.of_nat k < timeLeft st)%Z ->
            run (repeat (Tick t) k) st
            = setTimeLeft (timeLeft st - Z.of_nat k) st)
    by (intros k Hk; apply ticks_count_down; assumption).
  assert (Hlast : run (repeat (Tick t) (Z.to_nat (timeLeft st))) st
                  = setTimeLeft 0 (set_intervals (intervals st ∖ {[t]}) st)).
  { destruct (Z.to_nat (timeLeft st)) as [|k] eqn:Hk; [lia|].
    replace (S k) with (k + 1) by lia.
    rewrite repeat_app, run_app, Hall by lia.
    cbn [repeat run fold_left]. rewrite step_Tick by exact Hs.
    cbn [intervals setTimeLeft timeLeft]. rewrite decide_True by exact Hin.
    destruct (Z.leb_spec (timeLeft st - Z.of_nat k) 1) as [_|Hlt]; [|lia].
    reflexivity. }
  split; [exact Hall|]. split; [exact Hlast|].
  rewrite Hlast. rewrite step_Tick by exact Hs. cbn.
  rewrite decide_False by set_solver. reflexivity.
Qed.

Lemma countdown_runs_down_witness :
  timeLeft (run (repeat (Tick 1%positive) 7) processing_cat) = 13%Z
  /\ run (repeat (Tick 1%positive) 20) processing_cat
     = setTimeLeft 0 (set_intervals (intervals processing_cat ∖ {[1%positive]})
                        processing_cat).
Proof.
  destruct (countdown_runs_down processing_cat 1%positive) as (H1 & H2 & _).
  - apply reachable_run. constructor.
  - apply (bool_decide_unpack _). vm_compute. exact I.
  - vm_compute. discriminate.
  - split; [rewrite H1 by (vm_compute; reflexivity); reflexivity | exact H2].
Defined.

(** * Starting a run *)

(** X5.  In a reachable state with a session and [isProcessing] false, a
    processing request starts a run on the session's file: [isProcessing]
    becomes true, progress 0 and countdown 20, a new interval timer is
    started and stored in [timerRef], the call is pending, and the session,
    with its status, is as before. *)
Theorem process_request_starts_run st img :
  reachable st ->
  image st = Some img ->
  isProcessing st = false ->
  exists file,
    original img = Some file
    /\ step Process st = after_process st file
    /\ (intervalCount st ∉ intervals st)
    /\ image (step Process st) = Some img.
Proof.
  intros Hr E Hp.
  destruct (session_data_ok_reachable st Hr img E) as [Ho _].
  destruct (original img) as [file|] eqn:Hf; [|congruence].
  exists file. split; [reflexivity|].
  rewrite (step_Process_started st img file (reachable_synced st Hr) E Hf Hp).
  split; [reflexivity|]. split; [|exact E].
  destruct (timers_ok_reachable st Hr) as (_ & _ & _ & _ & Hfresh).
  intros Hin. specialize (Hfresh _ Hin). lia.
Qed.

Lemma process_request_starts_run_witness :
  step Process uploaded = after_process uploaded jpeg_small.
Proof.
  destruct (process_request_starts_run uploaded
              (pending_of jpeg_2MiB jpeg_small (blobUrl 0)))
    as (file & Hf & Hs & _).
  - apply reachable_run. constructor.
  - reflexivity.
  - reflexivity.
  - injection Hf as <-. exact Hs.
Defined.

(** X6.  The status of a session is never 'processing': no handler stores
    it, and a started run leaves the status it found. *)
Theorem status_never_processing st img :
  reachable st -> image st = Some img -> status img <> processing.
Proof.
  intros Hr E. pose proof (session_ok_reachable st Hr img E) as H.
  unfold session_ok in H. intros Hs. rewrite Hs in H. exact H.
Qed.

Lemma status_never_processing_witness :
  status (pending_of jpeg_2MiB jpeg_small (blobUrl 0)) <> processing.
Proof.
  apply (status_never_processing processing_cat).
  - apply reachable_run. constructor.
  - reflexivity.
Defined.

(** * A run that resolves *)

Lemma known_fresh st u : known st u -> u <> blobUrl (urlCount st).
Proof. intros (k & Hk & ->) H. apply blobUrl_inj in H. lia. Qed.

(** X7.  When a pending call resolves while a session exists, that
    session, whichever file the call was started on, gets the result as a
    PNG blob with a new URL and status 'completed'; afterwards the new URL
    is live and the previous result URL, if any, is not; the flags,
    progress and countdown are reset, the timer of the run is cancelled and
    the success toast is shown. *)
Theorem resolved_run_completes_session st i r data img :
  reachable st ->
  inFlight st !! i = Some r ->
  image st = Some img ->
  step (Settled i (Some data)) st = after_resolved st i r data
  /\ image (step (Settled i (Some data)) st)
     = Some (completed_of img (mkBlob data "image/png") (blobUrl (urlCount st)))
  /\ (blobUrl (urlCount st) ∈ objectUrls (step (Settled i (Some data)) st))
  /\ (forall u, processedUrl img = Some u ->
        u ∉ objectUrls (step (Settled i (Some data)) st))
  /\ (run_timer r ∉ intervals (step (Settled i (Some data)) st))
  /\ toasts (step (Settled i (Some data)) st) = (toasts st ++ [successToast])%list.
Proof.
  intros Hr Hi E.
  rewrite (step_Settled_resolved st i r data (reachable_synced st Hr) Hi).
  cbn. rewrite E.
  destruct (urls_ok_reachable st Hr) as [_ Hk]. destruct (Hk img E) as [Ko Kp].
  pose proof (known_fresh _ _ Ko) as Hno. apply known_truthy in Ko.
  cbn. rewrite (revoked_truthy _ _ Ko).
  split; [reflexivity|]. split; [reflexivity|].
  destruct (processedUrl img) as [u|]; cbn.
  - pose proof (known_fresh _ _ (Kp u eq_refl)) as Hnu.
    specialize (Kp u eq_refl). apply known_truthy in Kp.
    rewrite !(revoked_truthy _ _ Kp).
    split; [set_solver|]. split; [intros ? [= <-]; set_solver|].
    split; [set_solver | reflexivity].
  - split; [set_solver|]. split; [intros ? [=]|].
    split; [set_solver | reflexivity].
Qed.

Lemma resolved_run_completes_session_witness :
  image (step (Settled 0 (Some 9%N)) (run replaced_during_run initial))
  = Some (completed_of (pending_of png_small png_small (blobUrl 1))
            (mkBlob 9 "image/png") (blobUrl 2)).
Proof.
  apply (resolved_run_completes_session (run replaced_during_run initial) 0
           (mkRun jpeg_small 1) 9%N (pending_of png_small png_small (blobUrl 1))).
  - apply reachable_run. constructor.
  - reflexivity.
  - reflexivity.
Defined.

(** X8.  When a pending call settles, either way, while a session exists,
    the session keeps the string of its original URL, but that URL is no
    longer live: the cleanup effect run for the changed [image] has revoked
    it, and the original pane goes on rendering it. *)
Theorem settled_run_revokes_original_url st i r result img :
  reachable st ->
  inFlight st !! i = Some r ->
  image st = Some img ->
  (exists img', image (step (Settled i result) st) = Some img'
                /\ originalUrl img' = originalUrl img)
  /\ (originalUrl img ∉ objectUrls (step (Settled i result) st))
  /\ originalPane (render (step (Settled i result) st))
     = OriginalImage (originalUrl img).
Proof.
  intros Hr Hi E. pose proof (reachable_synced st Hr) as Hs.
  destruct (urls_ok_reachable st Hr) as [_ Hk]. destruct (Hk img E) as [Ko _].
  apply known_truthy in Ko.
  pose proof (revokedSome_subseteq (processedUrl img)) as Hsub.
  destruct result as [data|].
  - rewrite (step_Settled_resolved st i r data Hs Hi).
    unfold render. cbn. rewrite E. cbn. rewrite Ko.
    rewrite (revoked_truthy _ _ Ko).
    split; [eexists; split; reflexivity|]. split; [|reflexivity].
    intros Hin. apply Hsub in Hin. set_solver.
  - rewrite (step_Settled_failed st i r Hs Hi).
    unfold render. cbn. rewrite E. cbn. rewrite Ko.
    rewrite (revoked_truthy _ _ Ko).
    split; [eexists; split; reflexivity|]. split; [|reflexivity].
    intros Hin. apply Hsub in Hin. set_solver.
Qed.

Lemma settled_run_revokes_original_url_witness :
  (blobUrl 0 ∉ objectUrls (step (Settled 0 (Some 9%N)) processing_cat))
  /\ originalPane (render (step (Settled 0 (Some 9%N)) processing_cat))
     = OriginalImage (blobUrl 0).
Proof.
  destruct (settled_run_revokes_original_url processing_cat 0
              (mkRun jpeg_small 1) (Some 9%N)
              (pending_of jpeg_2MiB jpeg_small (blobUrl 0)))
    as (_ & H1 & H2).
  - apply reachable_run. constructor.
  - reflexivity.
  - reflexivity.
  - split; [exact H1 | exact H2].
Defined.

(** * A result without a session *)

Lemma cleaned_keeps o urls u :
  u ∈ urls ->
  (forall img, o = Some img -> u ∉ session_urls img) ->
  u ∈ cleaned o urls.
Proof.
  intros Hin Hno. destruct o as [img|]; [|exact Hin].
  specialize (Hno img eq_refl). unfold session_urls in Hno. cbn.
  unfold revokedSome, revoked.
  destruct (processedUrl img) as [p|]; repeat break_match; set_solver.
Qed.

Ltac keeps_tac Hno img :=
  specialize (Hno img eq_refl); unfold session_urls in Hno;
  unfold cleaned, revokedSome, revoked;
  destruct (processedUrl img); repeat break_match; set_solver.

Lemma leaked_step ev st u :
  reachable st -> leaked st u -> leaked (step ev st) u.
Proof.
  intros Hr. revert ev st Hr u.
  apply (step_cases (fun st st' => forall u, leaked st u -> leaked st' u));
    unfold leaked; try (intros; cbn in *; assumption).
  - intros st st1 e [-> | ->] u H; exact H.
  - intros st st1 file cf Hst1 _ u (Hin & Hk & Hno).
    assert (E : objectUrls st1 = objectUrls st /\ image st1 = image st
                /\ urlCount st1 = urlCount st)
      by (destruct Hst1 as [-> | ->]; auto).
    destruct E as (E1 & E2 & E3). cbn -[cleaned]. rewrite E1, E2, E3.
    pose proof (known_fresh _ _ Hk) as Hne.
    split; [apply cleaned_keeps; [set_solver | exact Hno]|].
    split; [eapply known_mono; [|exact Hk]; cbn; lia|].
    intros img [= <-]. unfold session_urls. cbn. set_solver.
  - intros st i r data _ u (Hin & Hk & Hno).
    pose proof (known_fresh _ _ Hk) as Hne. cbn -[cleaned].
    split; [|split; [eapply known_mono; [|exact Hk]; cbn; lia|]].
    + destruct (image st) as [prev|] eqn:E; [|set_solver].
      keeps_tac Hno prev.
    + destruct (image st) as [prev|] eqn:E; [|discriminate].
      intros img [= <-]. specialize (Hno prev eq_refl).
      unfold session_urls in *. cbn. set_solver.
  - intros st i r _ u (Hin & Hk & Hno). cbn -[cleaned].
    split; [apply cleaned_keeps; assumption|]. split; [exact Hk|].
    destruct (image st) as [prev|]; [|discriminate].
    intros img [= <-]. apply (Hno prev eq_refl).
  - intros st img b _ _ _ u (Hin & Hk & Hno). cbn.
    split; [exact Hin|]. split; [eapply known_mono; [|exact Hk]; cbn; lia|].
    exact Hno.
  - intros st img E u (Hin & Hk & Hno). cbn -[cleaned].
    split; [|split; [exact Hk | discriminate]].
    rewrite E in Hno. keeps_tac Hno img.
Qed.

(** X9.  When a pending call resolves after its session was deleted, no
    session is created, the success toast is shown all the same, and the
    URL created for the result is held by no session; no later event ever
    releases it. *)
Theorem result_without_session_leaks st i r data :
  reachable st ->
  inFlight st !! i = Some r ->
  image st = None ->
  image (step (Settled i (Some data)) st) = None
  /\ toasts (step (Settled i (Some data)) st) = (toasts st ++ [successToast])%list
  /\ forall evs,
       leaked (run evs (step (Settled i (Some data)) st)) (blobUrl (urlCount st)).
Proof.
  intros Hr Hi E.
  assert (Hr' : reachable (step (Settled i (Some data)) st)) by (constructor; exact Hr).
  assert (H0 : leaked (step (Settled i (Some data)) st) (blobUrl (urlCount st))).
  { rewrite (step_Settled_resolved st i r data (reachable_synced st Hr) Hi).
    unfold leaked. cbn. rewrite E.
    split; [set_solver|]. split; [exists (urlCount st); split; [cbn; lia|reflexivity]|].
    discriminate. }
  rewrite (step_Settled_resolved st i r data (reachable_synced st Hr) Hi) at 1 2.
  cbn. rewrite E. split; [reflexivity|]. split; [reflexivity|].
  intros evs. revert Hr' H0.
  generalize (step (Settled i (Some data)) st) as s.
  induction evs as [|ev evs IH]; intros s Hs Hl; [exact Hl|].
  cbn. apply IH; [constructor; exact Hs | apply leaked_step; assumption].
Qed.

Lemma result_without_session_leaks_witness :
  leaked (run [FileChange (Some png_small) (inl png_small); Process;
               Settled 0 (Some 5%N); Download; Delete]
            (step (Settled 0 (Some 9%N)) (run deleted_during_run initial)))
    (blobUrl 1).
Proof.
  apply (result_without_session_leaks (run deleted_during_run initial) 0
           (mkRun jpeg_small 1) 9%N).
  - apply reachable_run. constructor.
  - reflexivity.
  - reflexivity.
Defined.

(** * An upload that is accepted *)

(** X10.  A candidate file with an allowed type and a size of at most
    10 MiB passes validation; when its compression succeeds the new session
    is pending, holds the compressed bytes under the name of the file that
    was picked, and has no result; if every URL that was live belonged to
    the session it replaces, the URL of the new session is the only live
    one afterwards. *)
Theorem upload_accepted st file cf :
  reachable st ->
  In (file_type file) SETTINGS.upload_types ->
  (file_size file <= SETTINGS.upload_maxSize)%Z ->
  validate file = None
  /\ step (FileChange (Some file) (inl cf)) st = after_upload st file cf
  /\ image (step (FileChange (Some file) (inl cf)) st)
     = Some {| original := Some cf; originalUrl := blobUrl (urlCount st);
               processed := None; processedUrl := None;
               name := file_name file; status := pending |}
  /\ ((forall u, u ∈ objectUrls st ->
         exists img, image st = Some img /\ u ∈ session_urls img) ->
      objectUrls (step (FileChange (Some file) (inl cf)) st)
      = {[blobUrl (urlCount st)]}).
Proof.
  intros Hr Ht Hsz.
  assert (Hv : validate file = None).
  { unfold validate. apply includes_In in Ht. rewrite Ht. cbn.
    destruct (Z.gtb_spec (file_size file) SETTINGS.upload_maxSize); [lia|reflexivity]. }
  split; [exact Hv|].
  rewrite (step_upload_accepted st file cf (reachable_synced st Hr) Hv).
  split; [reflexivity|]. split; [reflexivity|].
  intros Hown. cbn -[cleaned].
  destruct (image st) as [img|] eqn:E.
  - destruct (urls_ok_reachable st Hr) as [_ Hk]. destruct (Hk img E) as [Ko Kp].
    pose proof (known_fresh _ _ Ko) as Hno. apply known_truthy in Ko.
    assert (Hown' : objectUrls st ⊆ session_urls img).
    { intros u Hu. destruct (Hown u Hu) as (img' & [= <-] & Hin). exact Hin. }
    unfold session_urls in Hown'. cbn. rewrite (revoked_truthy _ _ Ko).
    destruct (processedUrl img) as [p|]; cbn.
    + pose proof (known_fresh _ _ (Kp p eq_refl)) as Hnp.
      specialize (Kp p eq_refl). apply known_truthy in Kp.
      rewrite (revoked_truthy _ _ Kp). set_solver.
    + set_solver.
  - cbn. assert (Hempty : objectUrls st = ∅).
    { apply set_eq. intros u. split; [|set_solver].
      intros Hu. destruct (Hown u Hu) as (img & Himg & _). discriminate. }
    rewrite Hempty. set_solver.
Qed.

Lemma upload_accepted_witness :
  objectUrls (step (FileChange (Some png_10MiB) (inl png_small)) uploaded)
  = {[blobUrl 1]}.
Proof.
  destruct (upload_accepted uploaded png_10MiB png_small) as (_ & _ & _ & H).
  - apply reachable_run. constructor.
  - cbn. auto.
  - vm_compute. discriminate.
  - apply H. intros u Hu.
    exists (pending_of jpeg_2MiB jpeg_small (blobUrl 0)). split; [reflexivity|].
    assert (Hu' : u ∈ ({[blobUrl 0]} : gset string)).
    { revert Hu. vm_compute. exact (fun x => x). }
    unfold session_urls. cbn. set_solver.
Defined.

(** * Drag and drop *)

(** X11.  Dragging over a drop target sets [isDragging] and leaving it
    clears it, and neither touches anything else; a drop on a drop target,
    whatever files it carries, only clears [isDragging]: the handler looks
    for the files on [event.target], where there are none, so nothing is
    validated, compressed or uploaded and no toast is shown. *)
Theorem drop_never_uploads st files c :
  reachable st ->
  step DragOver st = setIsDragging true st
  /\ step DragLeave st = setIsDragging false st
  /\ step (dropEvent (dropped files) c) st = setIsDragging false st
  /\ image (step (dropEvent (dropped files) c) st) = image st
  /\ toasts (step (dropEvent (dropped files) c) st) = toasts st.
Proof.
  intros Hr. pose proof (reachable_synced st Hr) as Hs.
  assert (Hs' : staleImage (setIsDragging false st) = None) by exact Hs.
  assert (Hdrop : step (dropEvent (dropped files) c) st = setIsDragging false st).
  { unfold dropEvent, dropped, target_file0. cbn [target_files].
    rewrite step_Drop. unfold step, handle, handleFileChange.
    apply flushEffects_synced, Hs'. }
  split; [unfold step, handle, handleDragOver; apply flushEffects_synced, Hs|].
  split; [unfold step, handle, handleDragLeave; apply flushEffects_synced, Hs|].
  rewrite Hdrop. auto.
Qed.

Lemma drop_never_uploads_witness :
  step (dropEvent (dropped [png_small]) (inl png_small)) (step DragOver initial)
  = initial.
Proof.
  destruct (drop_never_uploads (step DragOver initial) [png_small] (inl png_small))
    as (_ & _ & H & _).
  - constructor. constructor.
  - rewrite H. reflexivity.
Defined.

(** * Saved files *)

(** X12.  Every file the component has saved is a PNG blob, the result of
    a run, under a name that starts with "processed_" and ends with
    ".png"; a download without a result, or with an empty file name,
    saves nothing and changes nothing. *)
Theorem saved_files_are_png st :
  reachable st ->
  (forall n b, (n, b) ∈ saved st ->
     (exists s, n = "processed_" +:+ s +:+ ".png")
     /\ blob_type b = "image/png")
  /\ ((image st = None
       \/ exists img, image st = Some img
                      /\ (processed img = None \/ name img = "")) ->
      step Download st = st).
Proof.
  intros Hr. split.
  - intros n b Hin. apply (saved_ok_reachable st Hr (n, b) Hin).
  - apply step_Download_void, reachable_synced, Hr.
Qed.

Lemma saved_files_are_png_witness :
  step Download processing_cat = processing_cat.
Proof.
  apply (saved_files_are_png processing_cat).
  - apply reachable_run. constructor.
  - right. exists (pending_of jpeg_2MiB jpeg_small (blobUrl 0)).
    split; [reflexivity | left; reflexivity].
Defined.

(** * The name of the download *)

Lemma ext_chars_app_dot b e : ext_chars (b +:+ "." +:+ e) = false.
Proof.
  induction b as [|c b IH]; [reflexivity|].
  change (String c b +:+ "." +:+ e) with (String c (b +:+ "." +:+ e)).
  cbn [ext_chars]. rewrite IH. apply andb_false_r.
Qed.

(** X13.  When a name is a base followed by a dot and an extension that
    is not empty and has neither dot nor slash, the download name is
    "processed_", the base, ".png": only the last extension is replaced,
    whatever dots and slashes the base has. *)
Theorem download_name_replaces_last_extension b e :
  e <> "" ->
  ext_chars e = true ->
  strip_extension (b +:+ "." +:+ e) = b
  /\ downloadName (b +:+ "." +:+ e) = "processed_" +:+ b +:+ ".png".
Proof.
  intros Hne He.
  assert (H : strip_extension (b +:+ "." +:+ e) = b).
  { induction b as [|c b IH].
    - change ("" +:+ "." +:+ e) with (String "." e).
      rewrite strip_extension_cons, ext_here_cons, He, (truthy_nonempty _ Hne).
      reflexivity.
    - change (String c b +:+ "." +:+ e) with (String c (b +:+ "." +:+ e)).
      rewrite strip_extension_cons, ext_here_cons, ext_chars_app_dot, IH.
      rewrite andb_false_r. reflexivity. }
  split; [exact H|]. unfold downloadName. rewrite H. reflexivity.
Qed.

Lemma download_name_replaces_last_extension_witness :
  downloadName "holiday.2024/beach.final.jpeg"
  = "processed_holiday.2024/beach.final.png".
Proof.
  apply (download_name_replaces_last_extension "holiday.2024/beach.final" "jpeg").
  - discriminate.
  - reflexivity.
Defined.

(** * What is rendered *)

(** X14.  In a reachable state without a session the component shows the
    upload prompt, the upload section and the placeholder, and neither the
    process button, nor a download button, nor the spinner.  With a session
    it shows the original image and no upload section, offers the process
    button exactly when [isProcessing] is false, shows the busy button
    otherwise, and shows the download button below exactly when the
    processed pane shows a result. *)
Theorem rendered_controls st :
  reachable st ->
  (image st = None ->
   render st = mkView UploadPrompt Placeholder true false false false)
  /\ (forall img, image st = Some img ->
        originalPane (render st) = OriginalImage (originalUrl img)
        /\ uploadSection (render st) = false
        /\ processButton (render st) = negb (isProcessing st)
        /\ processingButton (render st) = isProcessing st
        /\ (downloadButton (render st) = true
            <-> exists u, processedPane (render st) = ProcessedResult u)).
Proof.
  intros Hr. split.
  - intros E. destruct (timers_ok_reachable st Hr) as (_ & _ & Hs & _).
    unfold render. rewrite E.
    destruct (isProcessing st); [destruct (Hs eq_refl E) | reflexivity].
  - intros img E.
    destruct (session_data_ok_reachable st Hr img E) as [Ho _].
    destruct (urls_ok_reachable st Hr) as [_ Hk]. destruct (Hk img E) as [Ko Kp].
    apply known_truthy in Ko.
    pose proof (session_ok_reachable st Hr img E) as Hok.
    assert (Hsame : processed img = None <-> processedUrl img = None).
    { unfold session_ok in Hok. destruct (status img); intuition congruence. }
    unfold render. cbn. rewrite E, Ko.
    destruct (original img) as [file|] eqn:Hf; [|congruence].
    assert (Hd : bool_decide (is_Some (Some file)) = true)
      by (apply bool_decide_eq_true; eauto).
    rewrite Hd, andb_true_r.
    repeat (split; [reflexivity|]).
    destruct (isProcessing st).
    + rewrite andb_false_r. split; [discriminate | intros [u Hu]; discriminate].
    + rewrite andb_true_r. destruct (processedUrl img) as [u|] eqn:Hu.
      * specialize (Kp u eq_refl). apply known_truthy in Kp. rewrite Kp.
        destruct (processed img) as [b|]; [|destruct Hsame as [H _]; discriminate (H eq_refl)].
        split; [eauto | intros _; apply bool_decide_eq_true; eauto].
      * destruct Hsame as [_ H]. rewrite (H eq_refl).
        split; [intros Hb; apply bool_decide_eq_true in Hb; destruct Hb; discriminate
               | intros [u Hu']; discriminate].
Qed.

Lemma rendered_controls_witness :
  render initial = mkView UploadPrompt Placeholder true false false false
  /\ processButton (render uploaded) = true.
Proof.
  destruct (rendered_controls initial reachable_initial) as [H _].
  split; [apply H; reflexivity|].
  destruct (rendered_controls uploaded) as [_ H'].
  - apply reachable_run. constructor.
  - apply (H' (pending_of jpeg_2MiB jpeg_small (blobUrl 0)) eq_refl).
Defined.

(** * The worker count *)

(** X15.  For a browser that reports no negative core count, the worker
    count lies between 1 and 4: it is the reported count capped at 4, and 2
    when there is no navigator, no [hardwareConcurrency] or a count of 0. *)
Theorem workerCount_bounds navigator :
  (forall n, navigator = Some (Some n) -> 0 <= n)%Z ->
  (1 <= workerCount navigator <= 4)%Z
  /\ (forall n, navigator = Some (Some n) -> n <> 0%Z ->
        workerCount navigator = Z.min n 4)
  /\ ((navigator = None \/ navigator = Some None
       \/ navigator = Some (Some 0%Z)) ->
      workerCount navigator = 2%Z).
Proof.
  intros Hn. unfold workerCount. destruct navigator as [[n|]|].
  - specialize (Hn n eq_refl). destruct (Z.eqb_spec n 0) as [->|Hne].
    + split; [lia|]. split; [intros ? [= <-]; congruence | reflexivity].
    + split; [lia|]. split; [intros ? [= <-] _; reflexivity|].
      intros [H | [H | H]]; congruence.
  - split; [lia|]. split; [intros ? [=] | reflexivity].
  - split; [lia|]. split; [intros ? [=] | reflexivity].
Qed.

Lemma workerCount_bounds_witness :
  workerCount (Some (Some 16%Z)) = 4%Z /\ workerCount (Some (Some 3%Z)) = 3%Z.
Proof.
  split.
  - destruct (workerCount_bounds (Some (Some 16%Z))) as (_ & H & _).
    + intros n [= <-]. lia.
    + apply (H 16%Z); [reflexivity | discriminate].
  - destruct (workerCount_bounds (Some (Some 3%Z))) as (_ & H & _).
    + intros n [= <-]. lia.
    + apply (H 3%Z); [reflexivity | discriminate].
Defined.

(** * Unmounting *)

(** X16.  The cleanup React runs when the component is unmounted releases
    both URLs of the session, cancels the timer held in [timerRef], and
    resets the flag, the progress and the countdown; it keeps the session
    value and does not touch the pending calls. *)
Theorem unmount_cleanup st :
  reachable st ->
  (forall img, image st = Some img ->
     (originalUrl img ∉ objectUrls (cleanup (image st) st))
     /\ forall u, processedUrl img = Some u ->
          u ∉ objectUrls (cleanup (image st) st))
  /\ timerRef (cleanup (image st) st) = None
  /\ (forall t, timerRef st = Some t -> t ∉ intervals (cleanup (image st) st))
  /\ isProcessing (cleanup (image st) st) = false
  /\ progress (cleanup (image st) st) = 0%Z
  /\ timeLeft (cleanup (image st) st) = 0%Z
  /\ image (cleanup (image st) st) = image st
  /\ inFlight (cleanup (image st) st) = inFlight st.
Proof.
  intros Hr. rewrite cleanup_eq. cbn -[cleaned].
  split; [|repeat split; intros t ->; cbn; set_solver].
  intros img E. rewrite E. cbn.
  destruct (urls_ok_reachable st Hr) as [_ Hk]. destruct (Hk img E) as [Ko Kp].
  apply known_truthy in Ko. rewrite (revoked_truthy _ _ Ko).
  pose proof (revokedSome_subseteq (processedUrl img)
                (objectUrls st ∖ {[originalUrl img]})) as Hsub.
  split; [intros Hin; apply Hsub in Hin; set_solver|].
  intros u Hu. rewrite Hu. cbn. specialize (Kp u Hu). apply known_truthy in Kp.
  rewrite (revoked_truthy _ _ Kp). set_solver.
Qed.

Lemma unmount_cleanup_witness :
  objectUrls (cleanup (image completed_cat) completed_cat) = ∅
  /\ inFlight (cleanup (image processing_cat) processing_cat)
     = inFlight processing_cat.
Proof.
  split.
  - apply (bool_decide_unpack _). vm_compute. exact I.
  - apply (unmount_cleanup processing_cat). apply reachable_run. constructor.
Defined.
